(** * Slot assignment of the AFL LLVM-mode pass

    Shallow embedding of [llvm_mode/afl-llvm-pass.so copy.cc]: the three
    table builders [calcFmul], [calcFhash], [calcSingle] working on the
    file-level globals, and the pass entry point [runOnModule].

    - [unsigned int] values are integers of [Z]; the one place where the
      32-bit wrap-around can matter (the addition inside the edge hash) is
      written out with [wrap32].
    - [std::set<unsigned int>] is a [gset Z], [std::map] a [gmap],
      [std::vector] a [list].
    - A [static void f()] working on the globals is a function
      [globals -> globals]. *)

From Stdlib Require Import ZArith Lia.
From Stdlib Require Import Floats.PrimFloat.
From Stdlib Require Import Uint63.
From stdpp Require Import gmap strings list fin_maps fin_sets.

Open Scope Z_scope.

(** ** Data model *)

(** A [BasicBlock*] is only ever compared and used as a map key: it is
    modelled by its identity. *)
Abbreviation BasicBlock := positive (only parsing).

(** [using xyz = std::array<int, 3>] and
    [using cur_pre = std::array<unsigned int, 2>]. *)
Abbreviation xyz := (Z * Z * Z)%type (only parsing).
Abbreviation cur_pre := (Z * Z)%type (only parsing).

(** The globals the three functions write.  The remaining globals
    ([singleBBS], [multiBBS], [preds], [keys]) are only read by them and
    appear as section variables below. *)
Record globals := Globals {
  hashes : gset Z;
  tmpHashSet : gset Z;
  solv : list BasicBlock;
  unsolv : list BasicBlock;
  params : gmap BasicBlock xyz;
  hashMap : gmap cur_pre Z;
  singleMap : gmap Z Z
}.

(** State of the globals at program start (static initialisation). *)
Definition init : globals := Globals ∅ ∅ [] [] ∅ ∅ ∅.

(** [unsigned int] arithmetic is modulo [2^32]. *)
Definition wrap32 (n : Z) : Z := n mod 2 ^ 32.

(** [(cur >> x) ^ (keys[p] >> y) + z]: in C the additive operator binds
    tighter than [^], so [z] is added to the shifted predecessor key (as
    [unsigned int], hence [wrap32]) and the sum is then xor-ed. *)
Definition edgeHash (cur kp x y z : Z) : Z :=
  Z.lxor (Z.shiftr cur x) (wrap32 (Z.shiftr kp y + z)).

(** [static bool disjoint(set&, set&)]: two nested loops that return
    [false] on the first common element. *)
Definition disjoint (hashes tmpHashSet : gset Z) : bool :=
  forallb (λ hash, forallb (λ tmpHash, negb (hash =? tmpHash)) (elements tmpHashSet))
          (elements hashes).

(** The scan [for (int i = 0; i < MAP_SIZE; i++) if (!hashes.count(i)) { ...; break; }]:
    the first candidate not in the set, or [None] when the loop falls
    through. *)
Fixpoint first_free (cands : list Z) (h : gset Z) : option Z :=
  match cands with
  | [] => None
  | i :: rest => if decide (i ∈ h) then first_free rest h else Some i
  end.

(** [int delta = 10] and [double sigma = 0.001] (the binary64 value
    nearest to 0.001, written exactly). *)
Definition delta : Z := 10.
Definition sigma : float := 0x1.0624dd2f1a9fcp-10%float.

(** [(double)n] for a container size. *)
Definition to_double (n : nat) : float :=
  PrimFloat.of_uint63 (Uint63.of_Z (Z.of_nat n)).

(** [_min = (double)sizeofUnsolv / (sizeofUnsolv + sizeofSolv)]. *)
Definition unsolved_ratio (g : globals) : float :=
  PrimFloat.div (to_double (length (unsolv g)))
                (to_double (length (unsolv g) + length (solv g))).

(** [sizeofUnsolv < delta || _min < sigma]. *)
Definition sweep_break (g : globals) : bool :=
  (Z.of_nat (length (unsolv g)) <? delta) || PrimFloat.ltb (unsolved_ratio g) sigma.

(** The break condition in words: fewer than [delta] unsolved blocks, or
    an unsolved ratio below [sigma]. *)
Definition ends_early (g : globals) : Prop :=
  Z.of_nat (length (unsolv g)) < delta ∨ PrimFloat.ltb (unsolved_ratio g) sigma = true.

(** The fields a function does not write: [unsolv], [hashMap] and
    [singleMap] for the search of one block. *)
Definition same_tables (g g' : globals) : Prop :=
  unsolv g' = unsolv g ∧ hashMap g' = hashMap g ∧ singleMap g' = singleMap g.

Section Solver.

(** [MAP_SIZE_POW2] comes from [config.h], which is not part of the
    sources at hand: it is a parameter. *)
Variable MAP_SIZE_POW2 : Z.

(** Modelled from the spec: [MAP_SIZE], the bitmap capacity [M], is the
    power of two whose exponent is [MAP_SIZE_POW2] ([config.h] is
    missing). *)
Definition MAP_SIZE : Z := 2 ^ MAP_SIZE_POW2.

(** The read-only globals. *)
Variables singleBBS multiBBS : list BasicBlock.
Variable preds : gmap BasicBlock (list BasicBlock).
Variable keys : gmap BasicBlock Z.

(** [keys[BB]] and [preds[BB]]: [std::map::operator[]] yields the
    value-initialised element for an absent key. *)
Definition key_of (BB : BasicBlock) : Z := default 0 (keys !! BB).
Definition preds_of (BB : BasicBlock) : list BasicBlock := default [] (preds !! BB).

(** [for (int v = 1; v < MAP_SIZE_POW2; v++)]. *)
Definition param_range : list Z := seqZ 1 (MAP_SIZE_POW2 - 1).

(** [for (int i = 0; i < MAP_SIZE; i++)]. *)
Definition slot_range : list Z := seqZ 0 MAP_SIZE.

(** *** calcFmul *)

(** [tmpHashSet] after the loop over [preds[BB]]. *)
Definition edge_hashes (BB : BasicBlock) (x y z : Z) : gset Z :=
  foldl (λ s p, {[ edgeHash (key_of BB) (key_of p) x y z ]} ∪ s) ∅ (preds_of BB).

(** The test [tmpHashSet.size() == preds[BB].size() && disjoint(tmpHashSet, hashes)]. *)
Definition accepts (BB : BasicBlock) (tmp : gset Z) (g : globals) : bool :=
  (size tmp =? length (preds_of BB))%nat && disjoint tmp (hashes g).

(** Body of the loop over [z] for one candidate [(x, z)]. *)
Definition candidate (BB : BasicBlock) (y x : Z) (g : globals) (z : Z) : globals :=
  let tmp := edge_hashes BB x y z in
  if accepts BB tmp g
  then Globals (hashes g ∪ tmp) tmp (solv g ++ [BB]) (unsolv g)
               (<[BB := (x, y, z)]> (params g)) (hashMap g) (singleMap g)
  else Globals (hashes g) tmp (solv g) (unsolv g) (params g) (hashMap g) (singleMap g).

Definition search_z (BB : BasicBlock) (y : Z) (g : globals) (x : Z) : globals :=
  foldl (candidate BB y x) g param_range.

Definition search_x (BB : BasicBlock) (y : Z) (g : globals) : globals :=
  foldl (search_z BB y) g param_range.

(** Body of [for (auto BB : multiBBS)]: the search, then
    [unsolv.push_back(BB)]. *)
Definition process_block (y : Z) (g : globals) (BB : BasicBlock) : globals :=
  let g' := search_x BB y g in
  Globals (hashes g') (tmpHashSet g') (solv g') (unsolv g' ++ [BB])
          (params g') (hashMap g') (singleMap g').

(** [hashes.clear(); params.clear(); solv.clear(); unsolv.clear();]. *)
Definition clear_round (g : globals) : globals :=
  Globals ∅ (tmpHashSet g) [] [] ∅ (hashMap g) (singleMap g).

(** One round of the sweep, up to the break test. *)
Definition round (y : Z) (g : globals) : globals :=
  foldl (process_block y) (clear_round g) multiBBS.

(** The sweep over [y]: besides the globals it tells how the loop was
    left, [Some y] by the [break] of round [y], [None] by its
    condition. *)
Fixpoint sweep (ys : list Z) (g : globals) : option Z * globals :=
  match ys with
  | [] => (None, g)
  | y :: rest =>
      let g' := round y g in
      if sweep_break g' then (Some y, g') else sweep rest g'
  end.

(** The rounds the sweep runs, each with the globals at its end (where
    the break test is made). *)
Fixpoint sweep_trace (ys : list Z) (g : globals) : list (Z * globals) :=
  match ys with
  | [] => []
  | y :: rest =>
      let g' := round y g in
      (y, g') :: if sweep_break g' then [] else sweep_trace rest g'
  end.

(** The locals [i] and [min] only feed the two diagnostic lines written
    to [errs()], which are not modelled. *)
Definition calcFmul (g : globals) : globals := snd (sweep param_range g).

(** *** calcFhash *)

(** Body of [for (auto p : preds[BB])] with [cur = keys[BB]]. *)
Definition fhash_edge (cur : Z) (g : globals) (p : BasicBlock) : globals :=
  let pre := key_of p in
  match first_free slot_range (hashes g) with
  | Some i =>
      Globals ({[ i ]} ∪ hashes g) (tmpHashSet g) (solv g) (unsolv g)
              (params g) (<[(cur, pre) := i]> (hashMap g)) (singleMap g)
  | None => g
  end.

Definition fhash_block (g : globals) (BB : BasicBlock) : globals :=
  foldl (fhash_edge (key_of BB)) g (preds_of BB).

Definition calcFhash (g : globals) : globals :=
  foldl fhash_block
        (Globals (hashes g) (tmpHashSet g) (solv g) (unsolv g) (params g) ∅ (singleMap g))
        (unsolv g).

(** *** calcSingle *)

(** Body of [for (auto BB : singleBBS)]. *)
Definition single_block (g : globals) (BB : BasicBlock) : globals :=
  let cur := key_of BB in
  match first_free slot_range (hashes g) with
  | Some i =>
      Globals ({[ i ]} ∪ hashes g) (tmpHashSet g) (solv g) (unsolv g)
              (params g) (hashMap g) (<[cur := i]> (singleMap g))
  | None => g
  end.

Definition calcSingle (g : globals) : globals :=
  foldl single_block
        (Globals (hashes g) (tmpHashSet g) (solv g) (unsolv g) (params g) (hashMap g) ∅)
        singleBBS.

(** One step of the two table builders, as they follow each other from
    the start of [calcFhash] to the end of [calcSingle]: clearing a table,
    the step for one edge, the step for one block. *)
Inductive table_step : globals → globals → Prop :=
  | step_clear_hashMap g :
      table_step g (Globals (hashes g) (tmpHashSet g) (solv g) (unsolv g) (params g) ∅ (singleMap g))
  | step_edge g cur p : table_step g (fhash_edge cur g p)
  | step_clear_singleMap g :
      table_step g (Globals (hashes g) (tmpHashSet g) (solv g) (unsolv g) (params g) (hashMap g) ∅)
  | step_single g BB : table_step g (single_block g BB).

(** *** Slots in use *)

(** The edge hashes of [BB] under parameters [p], one per entry of
    [preds[BB]], in order. *)
Definition edge_slots (BB : BasicBlock) (p : xyz) : list Z :=
  (λ q, edgeHash (key_of BB) (key_of q) p.1.1 p.1.2 p.2) <$> preds_of BB.

(** The slots of the three collections: the edge hashes of every block
    that has an entry in [params], the values stored in [hashMap] and the
    values stored in [singleMap]. *)
Definition solved_slots (g : globals) : list Z :=
  map_to_list (params g) ≫= (λ e, edge_slots e.1 e.2).
Definition table_slots (g : globals) : list Z := (map_to_list (hashMap g)).*2.
Definition single_slots (g : globals) : list Z := (map_to_list (singleMap g)).*2.
Definition all_slots (g : globals) : list Z :=
  solved_slots g ++ table_slots g ++ single_slots g.

(** *** Invariants *)

(** Every claimed slot is an index of the bitmap. *)
Definition in_range (g : globals) : Prop := ∀ h, h ∈ hashes g → 0 ≤ h < MAP_SIZE.

(** Every block with parameters has pairwise distinct edge hashes, all of
    them claimed in [hashes], and no hash is shared by two blocks. *)
Definition solved_inv (g : globals) : Prop :=
  (∀ BB p, params g !! BB = Some p →
     NoDup (edge_slots BB p) ∧ ∀ s, s ∈ edge_slots BB p → s ∈ hashes g) ∧
  (∀ B1 B2 p1 p2 s, params g !! B1 = Some p1 → params g !! B2 = Some p2 →
     s ∈ edge_slots B1 p1 → s ∈ edge_slots B2 p2 → B1 = B2).

(** [s] is an edge hash of a block that has parameters. *)
Definition in_solved (g : globals) (s : Z) : Prop :=
  ∃ BB p, params g !! BB = Some p ∧ s ∈ edge_slots BB p.

(** [s] is a value stored in [hashMap]. *)
Definition in_table (g : globals) (s : Z) : Prop :=
  ∃ k, hashMap g !! k = Some s.

(** The values of a table are claimed in [h] and no value is stored
    twice. *)
Definition owned {K} `{Countable K} (m : gmap K Z) (h : gset Z) : Prop :=
  (∀ k v, m !! k = Some v → v ∈ h) ∧
  (∀ k1 k2 v, m !! k1 = Some v → m !! k2 = Some v → k1 = k2).

(** No value of the table satisfies [P]. *)
Definition avoids {K} `{Countable K} (m : gmap K Z) (P : Z → Prop) : Prop :=
  ∀ k v, m !! k = Some v → ¬ P v.

(** The invariant of the whole run: the three collections claim their
    slots in [hashes], and no slot is claimed twice. *)
Definition tables_inv (g : globals) : Prop :=
  solved_inv g ∧
  owned (hashMap g) (hashes g) ∧ avoids (hashMap g) (in_solved g) ∧
  owned (singleMap g) (hashes g) ∧ avoids (singleMap g) (in_solved g) ∧
  avoids (singleMap g) (in_table g).

(** *** Bookkeeping of the builders *)

(** The incoming edges [calcFhash] walks for a list of blocks: one for
    each entry of [preds[BB]], block after block. *)
Definition edges_of (l : list BasicBlock) : list (BasicBlock * BasicBlock) :=
  l ≫= (λ BB, (λ p, (BB, p)) <$> preds_of BB).

(** The step of [calcFhash] for the edge [e], a block and one entry of
    its predecessor list. *)
Definition edge_step (g : globals) (e : BasicBlock * BasicBlock) : globals :=
  fhash_edge (key_of e.1) g e.2.

(** The indices of the bitmap that are not claimed. *)
Definition free_slots (g : globals) : gset Z := list_to_set slot_range ∖ hashes g.

(** What a round of the solver keeps in order: a block is in [solv]
    exactly when it has parameters, it is then one of [multiBBS], and its
    parameters are the round's [y] with [x] and [z] from the search
    range. *)
Definition round_books (y : Z) (g : globals) : Prop :=
  (∀ BB, BB ∈ solv g ↔ is_Some (params g !! BB)) ∧
  (∀ BB, BB ∈ solv g → BB ∈ multiBBS) ∧
  (∀ BB p, params g !! BB = Some p →
     p.1.2 = y ∧ 1 ≤ p.1.1 < MAP_SIZE_POW2 ∧ 1 ≤ p.2 < MAP_SIZE_POW2).

(** The claimed hashes are as many as the predecessor entries of the
    blocks in [solv], counted as often as they are in [solv]. *)
Definition hashes_counted (g : globals) : Prop :=
  size (hashes g) = sum_list_with (λ BB, length (preds_of BB)) (solv g).

(** The invariant of [calcFhash] when [singleMap] still holds what an
    earlier run left: the part of [tables_inv] that does not mention
    it. *)
Definition edge_table_inv (g : globals) : Prop :=
  solved_inv g ∧ owned (hashMap g) (hashes g) ∧ avoids (hashMap g) (in_solved g).

End Solver.

(** The values of a table are indices below [n], claimed in [h]. *)
Definition slots_ok {K} `{Countable K} (n : Z) (m : gmap K Z) (h : gset Z) : Prop :=
  ∀ k v, m !! k = Some v → 0 ≤ v < n ∧ v ∈ h.

(** The globals the solver rebuilds in every round. *)
Definition same_solver_state (g g' : globals) : Prop :=
  hashes g = hashes g' ∧ solv g = solv g' ∧ unsolv g = unsolv g' ∧ params g = params g'.

(** ** The pass entry point *)

(** The values [runOnModule] builds through [IRBuilder], as expression
    trees; the [nosanitize] metadata is left out. *)
Inductive ty := Int8Ty | Int32Ty.

Inductive value :=
  | GlobalVariable (name : string)
  | ConstantInt (t : ty) (n : Z)
  | CreateLoad (ptr : value)
  | CreateZExt (v : value) (t : ty)
  | CreateXor (a b : value)
  | CreateGEP (ptr idx : value)
  | CreateAdd (a b : value).

(** [IRB.CreateStore(v, ptr)]. *)
Inductive store := CreateStore (v ptr : value).

(** The two globals the pass declares. *)
Definition AFLMapPtr : value := GlobalVariable "__afl_area_ptr".
Definition AFLPrevLoc : value := GlobalVariable "__afl_prev_loc".

(** [MapPtrIdx]: the address of the bitmap byte. *)
Definition MapPtrIdx (cur_loc : Z) : value :=
  CreateGEP (CreateLoad AFLMapPtr)
            (CreateXor (CreateZExt (CreateLoad AFLPrevLoc) Int32Ty)
                       (ConstantInt Int32Ty cur_loc)).

(** The stores inserted into one block: the counter update and the new
    [__afl_prev_loc]. *)
Definition block_code (cur_loc : Z) : list store :=
  [ CreateStore (CreateAdd (CreateLoad (MapPtrIdx cur_loc)) (ConstantInt Int8Ty 1))
                (MapPtrIdx cur_loc);
    CreateStore (ConstantInt Int32Ty (Z.shiftr cur_loc 1)) AFLPrevLoc ].

(** The bitmap index a block's code uses: the index operand of the
    address its first store writes to. *)
Definition bitmap_index (code : list store) : option value :=
  match code with
  | CreateStore _ (CreateGEP _ idx) :: _ => Some idx
  | _ => None
  end.

(** A module: its functions (each a list of blocks), the globals declared
    in it, and the code inserted at the head of blocks, in order of
    insertion. *)
Record module := Module {
  mod_functions : list (list BasicBlock);
  mod_globals : list string;
  mod_inserted : list (BasicBlock * list store)
}.

(** What [SAYF], [WARNF] and [OKF] print. *)
Inductive message :=
  | Banner
  | WarnNoTargets
  | OkInstrumented (inst_blocks : Z) (mode : string) (inst_ratio : Z).

(** The process state [runOnModule] runs in: the globals of the table
    builders, the number of calls made to [random()], and the console. *)
Record world := World {
  tables : globals;
  random_calls : nat;
  console : list message
}.

Definition with_tables (g : globals) (w : world) : world :=
  World g (random_calls w) (console w).

(** A call either returns or ends the process through [FATAL]. *)
Inductive result (A : Type) :=
  | Returns (a : A)
  | Fatal (msg : string).
Arguments Returns {A} a.
Arguments Fatal {A} msg.

Definition result_map {A B} (f : A → B) (r : result A) : result B :=
  match r with
  | Returns a => Returns (f a)
  | Fatal msg => Fatal msg
  end.

(** The blocks of a module, function after function: the order in which
    [runOnModule] visits them. *)
Definition blocks_of (m : module) : list BasicBlock := concat (mod_functions m).

(** Replacing the tables in the state of the block loop. *)
Definition loop_with_tables (g : globals) (st : module * world * Z) : module * world * Z :=
  (st.1.1, with_tables g st.1.2, st.2).

Section Pass.

Variable MAP_SIZE_POW2 : Z.

(** The C library and the environment: the successive results of
    [random()], [getenv], [isatty] and the conversion [sscanf(s, "%u", _)]
    makes ([None] when it converts nothing). *)
Variable random : nat → Z.
Variable getenv : string → option string.
Variable isatty : Z → bool.
Variable sscanf_u : string → option Z.

(** [AFL_R(x)] is a macro of [config.h], which is missing; in AFL it
    reads [(random() % (x))], and that is how it is taken here: the next
    result of [random()], reduced modulo [x]. *)
Definition AFL_R (x : Z) (w : world) : Z * world :=
  (random (random_calls w) mod x, World (tables w) (S (random_calls w)) (console w)).

Definition say (msg : message) (w : world) : world :=
  World (tables w) (random_calls w) (console w ++ [msg]).

(** Body of the loop over the blocks: skip the block with probability
    [1 - inst_ratio/100], else make up [cur_loc] and insert the code. *)
Definition instrument_block (inst_ratio : Z) (st : module * world * Z) (BB : BasicBlock)
  : module * world * Z :=
  let '(m, w, inst_blocks) := st in
  let '(r, w) := AFL_R 100 w in
  if r >=? inst_ratio then (m, w, inst_blocks)
  else
    let '(cur_loc, w) := AFL_R (MAP_SIZE MAP_SIZE_POW2) w in
    (Module (mod_functions m) (mod_globals m) (mod_inserted m ++ [(BB, block_code cur_loc)]),
     w, inst_blocks + 1).

(** [AFL_INST_RATIO]: 100 when unset, else a number from 1 to 100. *)
Definition decide_inst_ratio : result Z :=
  match getenv "AFL_INST_RATIO" with
  | None => Returns 100
  | Some inst_ratio_str =>
      match sscanf_u inst_ratio_str with
      | Some inst_ratio =>
          if (inst_ratio =? 0) || (inst_ratio >? 100)
          then Fatal "Bad value of AFL_INST_RATIO (must be between 1 and 100)"
          else Returns inst_ratio
      | None => Fatal "Bad value of AFL_INST_RATIO (must be between 1 and 100)"
      end
  end.

Definition runOnModule (m : module) (w : world) : result (bool * module * world) :=
  let be_quiet := negb (isatty 2 && negb (bool_decide (is_Some (getenv "AFL_QUIET")))) in
  let w := if be_quiet then w else say Banner w in
  match decide_inst_ratio with
  | Fatal msg => Fatal msg
  | Returns inst_ratio =>
      let m := Module (mod_functions m)
                      (mod_globals m ++ ["__afl_area_ptr"; "__afl_prev_loc"])
                      (mod_inserted m) in
      let '(m, w, inst_blocks) :=
        foldl (λ st F, foldl (instrument_block inst_ratio) st F) (m, w, 0) (mod_functions m) in
      let w :=
        if be_quiet then w
        else if inst_blocks =? 0 then say WarnNoTargets w
        else say (OkInstrumented inst_blocks
                    (if bool_decide (is_Some (getenv "AFL_HARDEN")) then "hardened"
                     else if bool_decide (is_Some (getenv "AFL_USE_ASAN"))
                             || bool_decide (is_Some (getenv "AFL_USE_MSAN"))
                          then "ASAN/MSAN" else "non-hardened")
                    inst_ratio) w in
      Returns (true, m, w)
  end.

(** [be_quiet] as [runOnModule] sets it: no banner and no summary unless
    standard error is a terminal and [AFL_QUIET] is unset. *)
Definition be_quiet : bool :=
  negb (isatty 2 && negb (bool_decide (is_Some (getenv "AFL_QUIET")))).

(** The blocks instrumented so far, each with the index of the
    [random()] call that made up its [cur_loc]. *)
Definition inserted_by (m0 m : module) (new : list (BasicBlock * nat)) : Prop :=
  mod_inserted m
  = mod_inserted m0
    ++ ((λ e, (e.1, block_code (random e.2 mod MAP_SIZE MAP_SIZE_POW2))) <$> new).

Definition loop_inv (m0 : module) (w0 : world) (st : module * world * Z) : Prop :=
  tables st.1.2 = tables w0 ∧
  (random_calls w0 ≤ random_calls st.1.2)%nat ∧
  ∃ new, inserted_by m0 st.1.1 new ∧
         Forall (λ n, random_calls w0 ≤ n < random_calls st.1.2)%nat new.*2 ∧
         NoDup new.*2.

End Pass.


(** ** Concrete inputs *)

Module Scenario.

(** A block [B] with key 1 and two predecessors [p1] (key 0) and [p2]
    (key 2), for a bitmap of [2^4] slots. *)
Definition B : BasicBlock := 1%positive.
Definition p1 : BasicBlock := 2%positive.
Definition p2 : BasicBlock := 3%positive.
Definition keys : gmap BasicBlock Z := <[B := 1]> (<[p1 := 0]> (<[p2 := 2]> ∅)).
Definition preds : gmap BasicBlock (list BasicBlock) := <[B := [p1; p2]]> ∅.

(** Five single-predecessor blocks with keys 10 .. 14, for a bitmap of
    [2^2] slots. *)
Definition singles : list BasicBlock := [4; 5; 6; 7; 8]%positive.
Definition single_keys : gmap BasicBlock Z :=
  list_to_map [(4%positive, 10); (5%positive, 11); (6%positive, 12);
               (7%positive, 13); (8%positive, 14)].

(** The keys of both groups of blocks together. *)
Definition all_keys : gmap BasicBlock Z := keys ∪ single_keys.

(** Ten blocks whose two predecessor entries are the same block, so that
    their two edge hashes always coincide. *)
Definition ten : list BasicBlock := [21; 22; 23; 24; 25; 26; 27; 28; 29; 30]%positive.
Definition ten_preds : gmap BasicBlock (list BasicBlock) :=
  list_to_map ((λ b, (b, [p1; p1])) <$> ten).

(** Keys wider than a bitmap of [2^2] slots. *)
Definition wide_keys : gmap BasicBlock Z :=
  <[B := 0]> (<[p1 := 16]> (<[p2 := 32]> single_keys)).

(** A module of two functions, a sequence of results of [random()], and
    a process started with no environment and no terminal. *)
Definition program : module := Module [[B; p1]; [p2]] [] [].
Definition random (n : nat) : Z := 7 * Z.of_nat n + 3.
Definition getenv (name : string) : option string := None.
Definition isatty (fd : Z) : bool := false.
Definition sscanf_u (s : string) : option Z := None.

(** The same process on a terminal, and one started with
    [AFL_INST_RATIO=0]. *)
Definition tty (fd : Z) : bool := true.
Definition ratio_env (name : string) : option string :=
  if String.eqb name "AFL_INST_RATIO" then Some "0" else None.
Definition sscanf_zero (s : string) : option Z := Some 0.

(** Three single-predecessor blocks of which the first and the last
    have the same key. *)
Definition twin_singles : list BasicBlock := [4; 5; 9]%positive.
Definition twin_keys : gmap BasicBlock Z := <[9%positive := 10]> single_keys.

(** Globals left behind by an earlier run of the three builders. *)
Definition used : globals :=
  calcSingle 4 singles all_keys
    (calcFhash 4 preds all_keys (calcFmul 4 [B] preds all_keys init)).

End Scenario.

(** ** Generic facts about the containers and the loops *)

Lemma foldl_inv {A B} (P : A → Prop) (f : A → B → A) (l : list B) (a : A) :
  P a → (∀ a b, b ∈ l → P a → P (f a b)) → P (foldl f a l).
Proof.
  revert a. induction l as [|b l IH]; intros a Ha Hstep; simpl; [done|].
  apply IH.
  - apply Hstep; [left | done].
  - intros a' b' Hb'. apply Hstep. by right.
Qed.

Lemma disjoint_spec (A B : gset Z) : disjoint A B = true ↔ A ## B.
Proof.
  unfold disjoint. rewrite forallb_forall. split.
  - intros H a HaA HaB.
    specialize (H a). rewrite <- list_elem_of_In, elem_of_elements in H.
    specialize (H HaA). rewrite forallb_forall in H.
    specialize (H a). rewrite <- list_elem_of_In, elem_of_elements in H.
    specialize (H HaB). rewrite Z.eqb_refl in H. discriminate.
  - intros H a Ha. rewrite <- list_elem_of_In, elem_of_elements in Ha.
    apply forallb_forall. intros b Hb.
    rewrite <- list_elem_of_In, elem_of_elements in Hb.
    apply negb_true_iff, Z.eqb_neq. intros ->. by apply (H b).
Qed.

Lemma foldl_insert_set {A} (f : A → Z) (l : list A) (s : gset Z) :
  foldl (λ s p, {[ f p ]} ∪ s) s l = list_to_set (f <$> l) ∪ s.
Proof.
  revert s. induction l as [|a l IH]; intros s; simpl.
  - set_solver.
  - rewrite IH. set_solver.
Qed.

Lemma size_list_to_set_le (l : list Z) : (size (list_to_set l : gset Z) ≤ length l)%nat.
Proof.
  induction l as [|a l IH].
  - by rewrite list_to_set_nil, size_empty.
  - rewrite list_to_set_cons. simpl.
    rewrite size_union_alt, size_singleton.
    assert (size (list_to_set l ∖ {[a]} : gset Z) ≤ size (list_to_set l : gset Z))%nat
      by (apply subseteq_size; set_solver).
    lia.
Qed.

Lemma size_list_to_set_NoDup (l : list Z) :
  size (list_to_set l : gset Z) = length l → NoDup l.
Proof.
  induction l as [|a l IH]; [constructor|].
  rewrite list_to_set_cons. simpl. intros Hsz.
  pose proof (size_list_to_set_le l) as Hle.
  destruct (decide (a ∈ (list_to_set l : gset Z))) as [Hin|Hnin].
  - replace ({[a]} ∪ list_to_set l : gset Z) with (list_to_set l : gset Z) in Hsz
      by set_solver.
    lia.
  - rewrite size_union in Hsz by set_solver.
    rewrite size_singleton in Hsz.
    constructor; [by rewrite elem_of_list_to_set in Hnin | apply IH; lia].
Qed.

Lemma first_free_Some (cands : list Z) (h : gset Z) (i : Z) :
  first_free cands h = Some i →
  ∃ l1 l2, cands = l1 ++ i :: l2 ∧ i ∉ h ∧ ∀ j, j ∈ l1 → j ∈ h.
Proof.
  induction cands as [|c cands IH]; simpl; [done|].
  destruct (decide (c ∈ h)) as [Hc|Hc].
  - intros Hff. destruct (IH Hff) as (l1 & l2 & -> & Hi & Hl1).
    exists (c :: l1), l2. split_and!; [done | done |].
    intros j [->|Hj]%elem_of_cons; auto.
  - intros [= <-]. exists [], cands. split_and!; [done | done |].
    intros j Hj. by apply elem_of_nil in Hj.
Qed.

Lemma first_free_None (cands : list Z) (h : gset Z) :
  first_free cands h = None ↔ ∀ j, j ∈ cands → j ∈ h.
Proof.
  induction cands as [|c cands IH]; simpl.
  - split; [|done]. intros _ j Hj. by apply elem_of_nil in Hj.
  - destruct (decide (c ∈ h)) as [Hc|Hc].
    + rewrite IH. split.
      * intros H j [->|Hj]%elem_of_cons; auto.
      * intros H j Hj. apply H. by right.
    + split; [done|]. intros H. exfalso. apply Hc, H. by left.
Qed.

(** The scan over [0 .. n-1] returns the least free index. *)
Lemma first_free_seqZ (n : Z) (h : gset Z) (i : Z) :
  first_free (seqZ 0 n) h = Some i →
  0 ≤ i < n ∧ i ∉ h ∧ ∀ j, 0 ≤ j < i → j ∈ h.
Proof.
  intros (l1 & l2 & Heq & Hi & Hl1)%first_free_Some.
  assert (Hin : i ∈ seqZ 0 n) by (rewrite Heq; set_solver).
  apply elem_of_seqZ in Hin.
  assert (Hlen : Z.of_nat (length l1) = i).
  { assert (Hlk : seqZ 0 n !! length l1 = Some i).
    { rewrite Heq. by rewrite list_lookup_middle. }
    apply lookup_seqZ in Hlk. lia. }
  split; [lia|]. split; [done|].
  intros j Hj. apply Hl1.
  assert (Hlk : seqZ 0 n !! Z.to_nat j = Some j).
  { apply lookup_seqZ. lia. }
  rewrite Heq in Hlk. rewrite lookup_app_l in Hlk by lia.
  by apply list_elem_of_lookup_2 in Hlk.
Qed.

Lemma first_free_seqZ_is_Some (n : Z) (h : gset Z) :
  (∃ j, 0 ≤ j < n ∧ j ∉ h) → is_Some (first_free (seqZ 0 n) h).
Proof.
  intros (j & Hj & Hnin).
  destruct (first_free (seqZ 0 n) h) eqn:Hff; [by eexists|].
  exfalso. apply Hnin. rewrite first_free_None in Hff. apply Hff.
  apply elem_of_seqZ. lia.
Qed.

(** X1. [disjoint] returns [true] exactly when its two sets have no
    common element, and the order of its arguments does not matter. *)
Theorem X1_disjoint_decides_disjointness (A B : gset Z) :
  (disjoint A B = true ↔ ∀ x, x ∈ A → x ∉ B) ∧
  (disjoint A B = false ↔ ∃ x, x ∈ A ∧ x ∈ B) ∧
  disjoint A B = disjoint B A.
Proof.
  assert (Hsym : disjoint A B = disjoint B A).
  { destruct (disjoint A B) eqn:HAB, (disjoint B A) eqn:HBA; try done.
    - apply disjoint_spec in HAB. symmetry in HAB. apply disjoint_spec in HAB. congruence.
    - apply disjoint_spec in HBA. symmetry in HBA. apply disjoint_spec in HBA. congruence. }
  split_and!; [apply disjoint_spec | | done].
  split.
  - intros Hf. destruct (decide (A ∩ B = ∅)) as [He|Hne].
    + assert (disjoint A B = true) by (apply disjoint_spec; set_solver). congruence.
    + apply set_choose_L in Hne as [x Hx]. exists x. set_solver.
  - intros (x & HA & HB). destruct (disjoint A B) eqn:Hd; [|done].
    apply disjoint_spec in Hd. set_solver.
Qed.


(** ** Arithmetic of the edge hash *)

Lemma wrap32_small (n : Z) : 0 ≤ n < 2 ^ 32 → wrap32 n = n.
Proof. intros Hn. unfold wrap32. by apply Z.mod_small. Qed.

Lemma wrap32_le (n : Z) : 0 ≤ n → 0 ≤ wrap32 n ≤ n.
Proof.
  intros Hn. unfold wrap32. split.
  - apply Z.mod_pos_bound. lia.
  - apply Z.mod_le; lia.
Qed.

Lemma shiftr_bound (a n k : Z) :
  0 ≤ a < 2 ^ n → 0 ≤ k ≤ n → 0 ≤ Z.shiftr a k < 2 ^ (n - k).
Proof.
  intros [Ha0 Han] Hk. rewrite Z.shiftr_div_pow2 by lia. split.
  - apply Z.div_pos; lia.
  - apply Z.div_lt_upper_bound; [lia|].
    rewrite <- Z.pow_add_r by lia. by replace (k + (n - k)) with n by lia.
Qed.

Lemma lxor_bound (a b n : Z) :
  0 ≤ n → 0 ≤ a < 2 ^ n → 0 ≤ b < 2 ^ n → 0 ≤ Z.lxor a b < 2 ^ n.
Proof.
  intros Hn [Ha0 Han] [Hb0 Hbn].
  assert (H0 : 0 ≤ Z.lxor a b) by (apply Z.lxor_nonneg; tauto).
  split; [done|].
  destruct (decide (Z.lxor a b = 0)) as [->|Hne]; [lia|].
  assert (Hn0 : 0 < n).
  { destruct (decide (n = 0)) as [->|]; [|lia].
    exfalso. apply Hne. assert (a = 0) as -> by lia. assert (b = 0) as -> by lia. done. }
  apply Z.log2_lt_pow2; [lia|].
  pose proof (Z.log2_lxor a b Ha0 Hb0) as Hlog.
  assert (Z.log2 a < n).
  { destruct (decide (a = 0)) as [->|]; [done|]. apply Z.log2_lt_pow2; lia. }
  assert (Z.log2 b < n).
  { destruct (decide (b = 0)) as [->|]; [done|]. apply Z.log2_lt_pow2; lia. }
  lia.
Qed.

Lemma pow2_gt_lin (n : Z) : 0 ≤ n → n < 2 ^ n.
Proof. intros Hn. apply Z.pow_gt_lin_r; lia. Qed.

(** With parameters from the search ranges and keys below [2^n], the
    hash stays below [2^n]. *)
Lemma edgeHash_bound (n cur kp x y z : Z) :
  0 ≤ cur < 2 ^ n → 0 ≤ kp < 2 ^ n →
  1 ≤ x < n → 1 ≤ y < n → 1 ≤ z < n →
  0 ≤ edgeHash cur kp x y z < 2 ^ n.
Proof.
  intros Hcur Hkp Hx Hy Hz. unfold edgeHash.
  pose proof (shiftr_bound cur n x Hcur ltac:(lia)) as Ha.
  pose proof (shiftr_bound kp n y Hkp ltac:(lia)) as Hb.
  assert (Hhalf : 2 ^ (n - 1) + 2 ^ (n - 1) = 2 ^ n).
  { replace n with (1 + (n - 1)) at 3 by lia. rewrite Z.pow_add_r by lia. lia. }
  assert (Hmono : ∀ k, 1 ≤ k < n → 2 ^ (n - k) ≤ 2 ^ (n - 1)).
  { intros k Hk. apply Z.pow_le_mono_r; lia. }
  pose proof (Hmono x Hx). pose proof (Hmono y Hy).
  pose proof (pow2_gt_lin (n - 1) ltac:(lia)).
  pose proof (wrap32_le (Z.shiftr kp y + z) ltac:(lia)).
  apply lxor_bound; lia.
Qed.


(** ** Tables whose values are claimed *)

Lemma owned_empty {K} `{Countable K} (h : gset Z) : owned (∅ : gmap K Z) h.
Proof. split; intros *; by rewrite lookup_empty. Qed.

Lemma owned_mono {K} `{Countable K} (m : gmap K Z) (h h' : gset Z) :
  owned m h → h ⊆ h' → owned m h'.
Proof. intros [Hin Hinj] Hsub. split; [|done]. intros k v Hk. apply Hsub. eauto. Qed.

Lemma owned_insert {K} `{Countable K} (m : gmap K Z) (h : gset Z) (k : K) (i : Z) :
  owned m h → i ∉ h → owned (<[k := i]> m) ({[ i ]} ∪ h).
Proof.
  intros [Hin Hinj] Hi. split.
  - intros k' v. rewrite lookup_insert. case_decide.
    + intros [= <-]. set_solver.
    + intros Hk'. apply Hin in Hk'. set_solver.
  - intros k1 k2 v. rewrite !lookup_insert.
    repeat case_decide; subst; try done.
    + intros [= <-] Hk2. apply Hin in Hk2. done.
    + intros Hk1 [= <-]. apply Hin in Hk1. done.
    + apply Hinj.
Qed.

Lemma avoids_empty {K} `{Countable K} (P : Z → Prop) : avoids (∅ : gmap K Z) P.
Proof. intros k v. by rewrite lookup_empty. Qed.

Lemma avoids_insert {K} `{Countable K} (m : gmap K Z) (P : Z → Prop) (k : K) (i : Z) :
  avoids m P → ¬ P i → avoids (<[k := i]> m) P.
Proof.
  intros Hm Hi k' v. rewrite lookup_insert. case_decide; [by intros [= <-]|apply Hm].
Qed.

Lemma avoids_impl {K} `{Countable K} (m : gmap K Z) (P Q : Z → Prop) :
  avoids m P → (∀ v, Q v → P v) → avoids m Q.
Proof. intros Hm HQP k v Hk HQ. apply (Hm k v Hk). auto. Qed.

Lemma owned_avoids_fresh {K} `{Countable K} (m : gmap K Z) (h : gset Z) (P : Z → Prop) (i : Z) :
  owned m h → i ∉ h → avoids m P → avoids m (λ v, P v ∨ v = i).
Proof.
  intros [Hin _] Hi Hm k v Hk [HP| ->]; [by apply (Hm k v)|]. apply Hi. eauto.
Qed.

Lemma owned_NoDup {K} `{Countable K} (m : gmap K Z) (h : gset Z) :
  owned m h → NoDup (map_to_list m).*2.
Proof.
  intros [_ Hinj]. apply NoDup_fmap_2_strong; [|apply NoDup_map_to_list].
  intros [k1 v1] [k2 v2] H1%elem_of_map_to_list H2%elem_of_map_to_list Heq.
  simpl in *. subst v2. f_equal. eauto.
Qed.

Lemma owned_elem_of {K} `{Countable K} (m : gmap K Z) (h : gset Z) (v : Z) :
  owned m h → v ∈ (map_to_list m).*2 → v ∈ h.
Proof.
  intros [Hin _] ([k v'] & -> & Hkv%elem_of_map_to_list)%list_elem_of_fmap.
  simpl. eauto.
Qed.

(** ** Scans that claim the first free slot *)

(** The two table builders share one step: scan [0 .. n-1] for the first
    index not in [hashes]; when there is one, claim it and store it in a
    table under a key; when there is none, do nothing. *)
Section Claiming.

Context {B K : Type} `{Countable K}.
Context (n : Z) (step : globals → B → globals).
Context (tbl : globals → gmap K Z) (kf : B → K).

Hypothesis step_spec : ∀ g b,
  match first_free (seqZ 0 n) (hashes g) with
  | Some i => hashes (step g b) = {[ i ]} ∪ hashes g ∧ tbl (step g b) = <[kf b := i]> (tbl g)
  | None => step g b = g
  end.

Local Abbreviation free g := (list_to_set (seqZ 0 n) ∖ hashes g : gset Z).

Lemma claiming_step g b :
  (size (free g) = 0%nat ∧ step g b = g) ∨
  (∃ i, 0 ≤ i < n ∧ i ∉ hashes g ∧
        hashes (step g b) = {[ i ]} ∪ hashes g ∧
        tbl (step g b) = <[kf b := i]> (tbl g) ∧
        size (free (step g b)) = pred (size (free g)) ∧
        (0 < size (free g))%nat ∧
        size (hashes (step g b)) = S (size (hashes g))).
Proof.
  pose proof (step_spec g b) as Hstep.
  destruct (first_free (seqZ 0 n) (hashes g)) as [i|] eqn:Hff.
  - right. destruct Hstep as [Hh Ht].
    apply first_free_seqZ in Hff as (Hi & Hnin & _).
    exists i. do 4 (split; [done|]). split_and!.
    + rewrite Hh.
      replace (list_to_set (seqZ 0 n) ∖ ({[i]} ∪ hashes g) : gset Z)
        with (free g ∖ {[i]}) by set_solver.
      rewrite size_difference, size_singleton; [lia|].
      apply singleton_subseteq_l, elem_of_difference. split; [|done].
      apply elem_of_list_to_set, elem_of_seqZ. lia.
    + assert (i ∈ free g) as Hin.
      { apply elem_of_difference. split; [|done].
        apply elem_of_list_to_set, elem_of_seqZ. lia. }
      destruct (size (free g)) eqn:Hsz; [|lia].
      apply size_empty_inv in Hsz. set_solver.
    + rewrite Hh, size_union, size_singleton by set_solver. lia.
  - left. split; [|done]. apply size_empty_iff, elem_of_equiv_empty.
    rewrite first_free_None in Hff. intros x [Hx Hnx]%elem_of_difference.
    apply Hnx, Hff. by apply elem_of_list_to_set in Hx.
Qed.

Lemma claiming_count l g :
  size (free (foldl step g l)) = (size (free g) - length l)%nat ∧
  size (hashes (foldl step g l)) = (size (hashes g) + (length l `min` size (free g)))%nat.
Proof.
  revert g. induction l as [|b l IH]; intros g; cbn [foldl length].
  - split; lia.
  - destruct (IH (step g b)) as [IHf IHh]. rewrite IHf, IHh.
    destruct (claiming_step g b) as [[Hz ->]|(i & _ & _ & _ & _ & Hf & Hpos & Hh)].
    + rewrite Hz. split; lia.
    + rewrite Hf, Hh. split; lia.
Qed.

Lemma claiming_keeps_entries l g k :
  is_Some (tbl g !! k) → is_Some (tbl (foldl step g l) !! k).
Proof.
  revert g. induction l as [|b l IH]; intros g Hk; simpl; [done|].
  apply IH.
  destruct (claiming_step g b) as [[_ ->]|(i & _ & _ & _ & -> & _)]; [done|].
  rewrite lookup_insert. by case_decide.
Qed.

Lemma claiming_covers l g :
  (length l ≤ size (free g))%nat →
  ∀ b, b ∈ l → is_Some (tbl (foldl step g l) !! kf b).
Proof.
  revert g. induction l as [|b0 l IH]; intros g Hlen b; simpl; [by intros ?%elem_of_nil|].
  simpl in Hlen.
  destruct (claiming_step g b0) as [[Hz _]|(i & _ & _ & _ & Ht & Hf & _ & _)]; [lia|].
  intros [->|Hb]%elem_of_cons.
  - apply claiming_keeps_entries. rewrite Ht, lookup_insert_eq. by eexists.
  - apply IH; [lia | done].
Qed.

Lemma claiming_slots_ok l g :
  slots_ok n (tbl g) (hashes g) → slots_ok n (tbl (foldl step g l)) (hashes (foldl step g l)).
Proof.
  revert g. induction l as [|b l IH]; intros g Hg; simpl; [done|].
  apply IH.
  destruct (claiming_step g b) as [[_ ->]|(i & Hi & _ & Hh & Ht & _)]; [done|].
  rewrite Hh, Ht. intros k v. rewrite lookup_insert. case_decide.
  - intros [= <-]. split; [done | set_solver].
  - intros Hk. destruct (Hg k v Hk) as [Hv Hin]. split; [done | set_solver].
Qed.

Lemma claiming_fresh l g (h0 : gset Z) :
  h0 ⊆ hashes g → owned (tbl g) (hashes g) → avoids (tbl g) (λ v, v ∈ h0) →
  h0 ⊆ hashes (foldl step g l) ∧
  owned (tbl (foldl step g l)) (hashes (foldl step g l)) ∧
  avoids (tbl (foldl step g l)) (λ v, v ∈ h0).
Proof.
  revert g. induction l as [|b l IH]; intros g Hsub Hown Hav; simpl; [done|].
  destruct (claiming_step g b) as [[_ ->]|(i & _ & Hi & Hh & Ht & _)]; [by apply IH|].
  apply IH; rewrite ?Hh, ?Ht.
  - set_solver.
  - by apply owned_insert.
  - apply avoids_insert; [done|]. set_solver.
Qed.


Lemma claiming_dom l g :
  dom (tbl (foldl step g l)) ⊆ dom (tbl g) ∪ list_to_set (kf <$> l).
Proof.
  revert g. induction l as [|b l IH]; intros g; simpl; [set_solver|].
  etrans; [apply IH|].
  destruct (claiming_step g b) as [[_ ->]|(i & _ & _ & _ & -> & _)]; [set_solver|].
  rewrite dom_insert. set_solver.
Qed.


End Claiming.

Section SolverFacts.

Context (MAP_SIZE_POW2 : Z) (singleBBS multiBBS : list BasicBlock).
Context (preds : gmap BasicBlock (list BasicBlock)) (keys : gmap BasicBlock Z).

Local Abbreviation candidate := (candidate preds keys).
Local Abbreviation search_z := (search_z MAP_SIZE_POW2 preds keys).
Local Abbreviation search_x := (search_x MAP_SIZE_POW2 preds keys).
Local Abbreviation process_block := (process_block MAP_SIZE_POW2 preds keys).
Local Abbreviation round := (round MAP_SIZE_POW2 multiBBS preds keys).
Local Abbreviation sweep := (sweep MAP_SIZE_POW2 multiBBS preds keys).
Local Abbreviation sweep_trace := (sweep_trace MAP_SIZE_POW2 multiBBS preds keys).
Local Abbreviation calcFmul := (calcFmul MAP_SIZE_POW2 multiBBS preds keys).
Local Abbreviation fhash_edge := (fhash_edge MAP_SIZE_POW2 keys).
Local Abbreviation fhash_block := (fhash_block MAP_SIZE_POW2 preds keys).
Local Abbreviation calcFhash := (calcFhash MAP_SIZE_POW2 preds keys).
Local Abbreviation single_block := (single_block MAP_SIZE_POW2 keys).
Local Abbreviation calcSingle := (calcSingle MAP_SIZE_POW2 singleBBS keys).
Local Abbreviation edge_hashes := (edge_hashes preds keys).
Local Abbreviation edge_slots := (edge_slots preds keys).
Local Abbreviation solved_inv := (solved_inv preds keys).
Local Abbreviation in_solved := (in_solved preds keys).
Local Abbreviation tables_inv := (tables_inv preds keys).
Local Abbreviation in_range := (in_range MAP_SIZE_POW2).
Local Abbreviation solved_slots := (solved_slots preds keys).
Local Abbreviation all_slots := (all_slots preds keys).
Local Abbreviation param_range := (param_range MAP_SIZE_POW2).
Local Abbreviation preds_of := (preds_of preds).
Local Abbreviation key_of := (key_of keys).
Local Abbreviation M := (MAP_SIZE MAP_SIZE_POW2).
Local Abbreviation table_step := (table_step MAP_SIZE_POW2 keys).
Local Abbreviation edges_of := (edges_of preds).
Local Abbreviation edge_step := (edge_step MAP_SIZE_POW2 keys).
Local Abbreviation free_slots := (free_slots MAP_SIZE_POW2).
Local Abbreviation round_books := (round_books MAP_SIZE_POW2 multiBBS).
Local Abbreviation hashes_counted := (hashes_counted preds).
Local Abbreviation edge_table_inv := (edge_table_inv preds keys).

(** *** What the search leaves alone *)

Lemma candidate_same_tables BB y x g z : same_tables g (candidate BB y x g z).
Proof. unfold same_tables, candidate. by destruct (accepts _ _ _ _). Qed.

Lemma search_z_same_tables BB y g x : same_tables g (search_z BB y g x).
Proof.
  unfold search_z. apply (foldl_inv (same_tables g)); [done|].
  intros g' z _ (Hu & Hh & Hs).
  destruct (candidate_same_tables BB y x g' z) as (Hu' & Hh' & Hs').
  unfold same_tables. by rewrite Hu', Hh', Hs'.
Qed.

Lemma search_x_same_tables BB y g : same_tables g (search_x BB y g).
Proof.
  unfold search_x. apply (foldl_inv (same_tables g)); [done|].
  intros g' x _ (Hu & Hh & Hs).
  destruct (search_z_same_tables BB y g' x) as (Hu' & Hh' & Hs').
  unfold same_tables. by rewrite Hu', Hh', Hs'.
Qed.

Lemma process_block_unsolv y g BB : unsolv (process_block y g BB) = unsolv g ++ [BB].
Proof.
  unfold process_block. simpl.
  by destruct (search_x_same_tables BB y g) as (-> & _).
Qed.

Lemma foldl_process_block_unsolv y l g :
  unsolv (foldl (process_block y) g l) = unsolv g ++ l.
Proof.
  revert g. induction l as [|BB l IH]; intros g; simpl.
  - by rewrite app_nil_r.
  - rewrite IH, process_block_unsolv. by rewrite <- app_assoc.
Qed.

Lemma round_unsolv y g : unsolv (round y g) = multiBBS.
Proof. unfold round. by rewrite foldl_process_block_unsolv. Qed.

(** A block enters [solv] only while it is the block being searched. *)
Lemma candidate_solv BB y x g z b :
  b ∈ solv (candidate BB y x g z) → b ∈ solv g ∨ b = BB.
Proof.
  unfold candidate. destruct (accepts _ _ _ _); simpl; [|by left].
  rewrite elem_of_app, list_elem_of_singleton. tauto.
Qed.

Lemma search_x_solv BB y g b :
  b ∈ solv (search_x BB y g) → b ∈ solv g ∨ b = BB.
Proof.
  unfold search_x.
  apply (foldl_inv (λ g', b ∈ solv g' → b ∈ solv g ∨ b = BB)); [by left|].
  intros g' x _ IH. unfold search_z.
  apply (foldl_inv (λ g'', b ∈ solv g'' → b ∈ solv g ∨ b = BB)); [done|].
  intros g'' z _ IH' [Hb| ->]%candidate_solv; [auto | by right].
Qed.

Lemma round_solv_unsolv y g b : b ∈ solv (round y g) → b ∈ unsolv (round y g).
Proof.
  unfold round.
  apply (foldl_inv (λ g', b ∈ solv g' → b ∈ unsolv g')).
  - simpl. by intros ?%elem_of_nil.
  - intros g' BB _ IH. rewrite process_block_unsolv, elem_of_app, list_elem_of_singleton.
    unfold process_block. simpl.
    intros [Hb| ->]%search_x_solv; [left; auto | by right].
Qed.

(** The sweep runs no round, or ends in the state some round left. *)
Lemma sweep_cases ys g :
  (ys = [] ∧ sweep ys g = (None, g)) ∨
  ∃ y g0, y ∈ ys ∧ (sweep ys g).2 = round y g0.
Proof.
  revert g. induction ys as [|y ys IH]; intros g; [by left|right].
  simpl. destruct (sweep_break (round y g)) eqn:Hb.
  - exists y, g. split; [by left | done].
  - destruct (IH (round y g)) as [[-> Hs]|(y' & g0 & Hy' & Hs)].
    + simpl. exists y, g. split; [by left | done].
    + exists y', g0. split; [by right | done].
Qed.


(** *** The solver keeps the claimed hashes apart *)

Lemma edge_hashes_slots BB x y z :
  edge_hashes BB x y z = list_to_set (edge_slots BB (x, y, z)).
Proof.
  unfold edge_hashes, edge_slots. simpl.
  rewrite (foldl_insert_set (λ q, edgeHash (key_of BB) (key_of q) x y z)).
  by rewrite union_empty_r_L.
Qed.

Lemma accepts_spec BB x y z g :
  accepts preds BB (edge_hashes BB x y z) g = true →
  NoDup (edge_slots BB (x, y, z)) ∧ ∀ s, s ∈ edge_slots BB (x, y, z) → s ∉ hashes g.
Proof.
  unfold accepts. rewrite andb_true_iff, Nat.eqb_eq, disjoint_spec.
  rewrite edge_hashes_slots. intros [Hsz Hdisj]. split.
  - apply size_list_to_set_NoDup. rewrite Hsz.
    unfold edge_slots. by rewrite length_fmap.
  - intros s Hs Hin. apply (Hdisj s); [|done]. by apply elem_of_list_to_set.
Qed.

Lemma candidate_solved_inv BB y x g z :
  solved_inv g → solved_inv (candidate BB y x g z).
Proof.
  intros [Hown Hapart]. unfold candidate.
  destruct (accepts _ _ _ _) eqn:Hacc; [|done].
  apply accepts_spec in Hacc as [Hnd Hfresh].
  split; simpl.
  - intros B p. rewrite lookup_insert. case_decide as HB.
    + intros [= <-]. subst B. split; [done|].
      intros s Hs. rewrite edge_hashes_slots. set_solver.
    + intros Hp. destruct (Hown B p Hp) as [Hnd' Hin']. split; [done|].
      intros s Hs. apply elem_of_union_l. auto.
  - intros B1 B2 p1 p2 s. rewrite !lookup_insert.
    repeat case_decide; subst; try done.
    + intros [= <-] Hp2 Hs1 Hs2. exfalso.
      apply (Hfresh s Hs1). by apply (Hown B2 p2 Hp2).
    + intros Hp1 [= <-] Hs1 Hs2. exfalso.
      apply (Hfresh s Hs2). by apply (Hown B1 p1 Hp1).
    + apply Hapart.
Qed.

Lemma search_x_solved_inv BB y g : solved_inv g → solved_inv (search_x BB y g).
Proof.
  intros Hg. unfold search_x. apply (foldl_inv solved_inv); [done|].
  intros g' x _ Hg'. unfold search_z. apply (foldl_inv solved_inv); [done|].
  intros g'' z _. apply candidate_solved_inv.
Qed.

Lemma process_block_solved_inv y g BB : solved_inv g → solved_inv (process_block y g BB).
Proof. intros Hg%(search_x_solved_inv BB y). exact Hg. Qed.

Lemma round_solved_inv y g : solved_inv (round y g).
Proof.
  unfold round. apply (foldl_inv solved_inv).
  - split; simpl; intros *; by rewrite lookup_empty.
  - intros g' BB _. apply process_block_solved_inv.
Qed.

Lemma calcFmul_solved_inv g : solved_inv g → solved_inv (calcFmul g).
Proof.
  intros Hg. unfold calcFmul.
  destruct (sweep_cases param_range g) as [[_ ->]|(y & g0 & _ & ->)]; [done|].
  apply round_solved_inv.
Qed.

Lemma init_solved_inv : solved_inv init.
Proof. split; simpl; intros *; by rewrite lookup_empty. Qed.

(** The solver writes neither table. *)
Lemma round_tables y g :
  hashMap (round y g) = hashMap g ∧ singleMap (round y g) = singleMap g.
Proof.
  unfold round.
  apply (foldl_inv (λ g', hashMap g' = hashMap g ∧ singleMap g' = singleMap g)); [done|].
  intros g' BB _ [<- <-]. unfold process_block. simpl.
  by destruct (search_x_same_tables BB y g') as (_ & -> & ->).
Qed.

Lemma sweep_tables ys g :
  hashMap (sweep ys g).2 = hashMap g ∧ singleMap (sweep ys g).2 = singleMap g.
Proof.
  revert g. induction ys as [|y ys IH]; intros g; [done|]. simpl.
  destruct (round_tables y g) as [Hh Hs].
  destruct (sweep_break (round y g)); simpl; [done|].
  destruct (IH (round y g)) as [-> ->]. done.
Qed.

(** *** The table builders claim fresh slots only *)

Lemma solved_inv_mono g g' :
  params g' = params g → hashes g ⊆ hashes g' → solved_inv g → solved_inv g'.
Proof.
  intros Hp Hh [Hown Hapart]. split; rewrite Hp; [|done].
  intros BB p HBB. destruct (Hown BB p HBB) as [Hnd Hin]. split; [done|].
  intros s Hs. apply Hh. auto.
Qed.

Lemma in_solved_claimed g s : solved_inv g → in_solved g s → s ∈ hashes g.
Proof. intros [Hown _] (BB & p & HBB & Hs). by apply (Hown BB p HBB). Qed.

Lemma fhash_edge_inv cur g p : tables_inv g → tables_inv (fhash_edge cur g p).
Proof.
  intros (Hsolved & Htab & Htab_s & Hsin & Hsin_s & Hsin_t).
  unfold fhash_edge.
  destruct (first_free _ _) as [i|] eqn:Hff; [|done].
  apply first_free_Some in Hff as (_ & _ & _ & Hi & _).
  split_and!; simpl.
  - apply (solved_inv_mono g); [done | set_solver | done].
  - by apply owned_insert.
  - apply avoids_insert; [done|]. intros Hs. apply Hi. by apply in_solved_claimed.
  - apply (owned_mono _ (hashes g)); [done | set_solver].
  - done.
  - apply (avoids_impl _ (λ v, in_table g v ∨ v = i)).
    + by apply (owned_avoids_fresh _ (hashes g)).
    + intros v [k Hk]. simpl in Hk. rewrite lookup_insert in Hk.
      case_decide; [right; congruence | left; by exists k].
Qed.

Lemma single_block_inv g BB : tables_inv g → tables_inv (single_block g BB).
Proof.
  intros (Hsolved & Htab & Htab_s & Hsin & Hsin_s & Hsin_t).
  unfold single_block.
  destruct (first_free _ _) as [i|] eqn:Hff; [|done].
  apply first_free_Some in Hff as (_ & _ & _ & Hi & _).
  split_and!; simpl.
  - apply (solved_inv_mono g); [done | set_solver | done].
  - apply (owned_mono _ (hashes g)); [done | set_solver].
  - done.
  - by apply owned_insert.
  - apply avoids_insert; [done|]. intros Hs. apply Hi. by apply in_solved_claimed.
  - apply avoids_insert; [done|]. intros [k Hk]. simpl in Hk.
    apply Hi. destruct Htab as [Hin _]. eauto.
Qed.

Lemma calcFhash_inv g : tables_inv g → tables_inv (calcFhash g).
Proof.
  intros (Hsolved & Htab & Htab_s & Hsin & Hsin_s & Hsin_t).
  unfold calcFhash. apply (foldl_inv tables_inv).
  - split_and!; simpl; try done; try apply owned_empty; try apply avoids_empty.
    intros k v Hk [k' Hk']. simpl in Hk'. by rewrite lookup_empty in Hk'.
  - intros g' BB _ Hg'. unfold fhash_block.
    apply (foldl_inv tables_inv); [done|].
    intros g'' p _. apply fhash_edge_inv.
Qed.

Lemma calcSingle_inv g : tables_inv g → tables_inv (calcSingle g).
Proof.
  intros (Hsolved & Htab & Htab_s & Hsin & Hsin_s & Hsin_t).
  unfold calcSingle. apply (foldl_inv tables_inv).
  - split_and!; simpl; try done; try apply owned_empty; apply avoids_empty.
  - intros g' BB _. apply single_block_inv.
Qed.

Lemma calcFmul_inv g :
  hashMap g = ∅ → singleMap g = ∅ → solved_inv g → tables_inv (calcFmul g).
Proof.
  intros Hh Hs Hg. unfold tables_inv.
  destruct (sweep_tables param_range g) as [Hh' Hs'].
  unfold calcFmul. rewrite Hh', Hs', Hh, Hs.
  split_and!; try apply owned_empty; try apply avoids_empty.
  by apply calcFmul_solved_inv.
Qed.

Lemma builders_inv : tables_inv (calcSingle (calcFhash (calcFmul init))).
Proof.
  apply calcSingle_inv, calcFhash_inv, calcFmul_inv; [done..|apply init_solved_inv].
Qed.

(** Under the invariant the three collections hold pairwise distinct
    slots. *)
Lemma solved_slots_NoDup g : solved_inv g → NoDup (solved_slots g).
Proof.
  intros [Hown Hapart]. unfold solved_slots. apply NoDup_bind.
  - intros [B1 p1] [B2 p2] s H1%elem_of_map_to_list H2%elem_of_map_to_list Hs1 Hs2.
    simpl in *. assert (B1 = B2) as -> by eauto. congruence.
  - intros [BB p] HBB%elem_of_map_to_list. by apply Hown.
  - apply NoDup_map_to_list.
Qed.

Lemma elem_of_solved_slots g s : s ∈ solved_slots g ↔ in_solved g s.
Proof.
  unfold solved_slots, in_solved. rewrite list_elem_of_bind. split.
  - intros ([BB p] & Hs & HBB%elem_of_map_to_list). by exists BB, p.
  - intros (BB & p & HBB & Hs). exists (BB, p). by rewrite elem_of_map_to_list.
Qed.

Lemma elem_of_table_values {K} `{Countable K} (m : gmap K Z) (v : Z) :
  v ∈ (map_to_list m).*2 ↔ ∃ k, m !! k = Some v.
Proof.
  rewrite list_elem_of_fmap. split.
  - intros ([k v'] & -> & Hkv%elem_of_map_to_list). by exists k.
  - intros [k Hk]. exists (k, v). by rewrite elem_of_map_to_list.
Qed.

Lemma tables_inv_NoDup g : tables_inv g → NoDup (all_slots g).
Proof.
  intros (Hsolved & Htab & Htab_s & Hsin & Hsin_s & Hsin_t).
  unfold all_slots, table_slots, single_slots.
  apply NoDup_app. split_and!.
  - by apply solved_slots_NoDup.
  - intros s Hs%elem_of_solved_slots [[k Hk]%elem_of_table_values|[k Hk]%elem_of_table_values]%elem_of_app.
    + by apply (Htab_s k s).
    + by apply (Hsin_s k s).
  - apply NoDup_app. split_and!.
    + by apply (owned_NoDup _ (hashes g)).
    + intros s Hs%elem_of_table_values [k Hk]%elem_of_table_values.
      by apply (Hsin_t k s).
    + by apply (owned_NoDup _ (hashes g)).
Qed.

(** *** The sweep and its trace *)

Lemma sweep_break_ends_early g : sweep_break g = true ↔ ends_early g.
Proof.
  unfold sweep_break, ends_early. rewrite orb_true_iff, Z.ltb_lt. tauto.
Qed.

Lemma sweep_trace_prefix ys g : (sweep_trace ys g).*1 `prefix_of` ys.
Proof.
  revert g. induction ys as [|y ys IH]; intros g; simpl; [done|].
  apply prefix_cons. destruct (sweep_break _); [apply prefix_nil | apply IH].
Qed.

Lemma sweep_trace_round ys g y gy :
  (y, gy) ∈ sweep_trace ys g → ∃ g0, gy = round y g0.
Proof.
  revert g. induction ys as [|y0 ys IH]; intros g; simpl; [by intros ?%elem_of_nil|].
  intros [[= -> ->]|Hin]%elem_of_cons; [by exists g|].
  destruct (sweep_break _); [by apply elem_of_nil in Hin | by apply IH in Hin].
Qed.

Lemma sweep_exit_elem_of ys g y : (sweep ys g).1 = Some y → y ∈ ys.
Proof.
  revert g. induction ys as [|y0 ys IH]; intros g; simpl; [done|].
  destruct (sweep_break _); simpl.
  - intros [= ->]. by left.
  - intros ?%IH. by right.
Qed.

Lemma sweep_trace_exit ys g y gy :
  NoDup ys → (y, gy) ∈ sweep_trace ys g →
  (sweep ys g).1 = Some y ↔ sweep_break gy = true.
Proof.
  revert g. induction ys as [|y0 ys IH]; intros g Hnd; simpl; [by intros ?%elem_of_nil|].
  apply NoDup_cons in Hnd as [Hy0 Hnd].
  destruct (sweep_break (round y0 g)) eqn:Hb; simpl.
  - intros [= -> ->]%list_elem_of_singleton. by rewrite Hb.
  - intros [[= -> ->]|Hin]%elem_of_cons.
    + rewrite Hb. split; [|done]. intros ?%sweep_exit_elem_of. done.
    + by apply IH.
Qed.

Lemma sweep_trace_all ys g : (sweep ys g).1 = None → (sweep_trace ys g).*1 = ys.
Proof.
  revert g. induction ys as [|y0 ys IH]; intros g; simpl; [done|].
  destruct (sweep_break _); simpl; [done|]. intros ?%IH. by f_equal.
Qed.

Lemma sweep_trace_last ys g :
  (sweep ys g).2 = default g (last (sweep_trace ys g).*2).
Proof.
  revert g. induction ys as [|y0 ys IH]; intros g; simpl; [done|].
  destruct (sweep_break _); simpl; [done|].
  rewrite IH, last_cons. by destruct (last _).
Qed.

Lemma param_range_bounds y : y ∈ param_range ↔ 1 ≤ y < MAP_SIZE_POW2.
Proof. unfold param_range. rewrite elem_of_seqZ. lia. Qed.

(** *** Occupancy: what is in [hashes] *)

Lemma foldl_rtc {A B} (R : relation A) (f : A → B → A) (l : list B) (a : A) :
  (∀ a b, rtc R a (f a b)) → rtc R a (foldl f a l).
Proof.
  intros Hstep. revert a. induction l as [|b l IH]; intros a; simpl; [done|].
  etrans; [apply Hstep | apply IH].
Qed.

Lemma table_step_mono g g' : table_step g g' → hashes g ⊆ hashes g'.
Proof.
  intros [g0|g0 cur p|g0|g0 BB]; simpl; try done.
  - unfold fhash_edge. destruct (first_free _ _); simpl; set_solver.
  - unfold single_block. destruct (first_free _ _); simpl; set_solver.
Qed.

Lemma rtc_table_step_mono g g' : rtc table_step g g' → hashes g ⊆ hashes g'.
Proof.
  induction 1 as [|g1 g2 g3 Hstep _ IH]; [done|].
  etrans; [by apply table_step_mono | done].
Qed.

Lemma calcFhash_steps g : rtc table_step g (calcFhash g).
Proof.
  unfold calcFhash. etrans; [apply rtc_once, step_clear_hashMap|].
  apply foldl_rtc. intros g' BB. unfold fhash_block.
  apply foldl_rtc. intros g'' p. apply rtc_once, step_edge.
Qed.

Lemma calcSingle_steps g : rtc table_step g (calcSingle g).
Proof.
  unfold calcSingle. etrans; [apply rtc_once, step_clear_singleMap|].
  apply foldl_rtc. intros g' BB. apply rtc_once, step_single.
Qed.

Lemma table_step_in_range g g' : table_step g g' → in_range g → in_range g'.
Proof.
  intros [g0|g0 cur p|g0|g0 BB] Hg; simpl; try done.
  - unfold fhash_edge. destruct (first_free _ _) as [i|] eqn:Hff; [|done].
    apply first_free_seqZ in Hff as (Hi & _).
    intros h [->%elem_of_singleton|Hh]%elem_of_union; [done | by apply Hg].
  - unfold single_block. destruct (first_free _ _) as [i|] eqn:Hff; [|done].
    apply first_free_seqZ in Hff as (Hi & _).
    intros h [->%elem_of_singleton|Hh]%elem_of_union; [done | by apply Hg].
Qed.

(** Whatever the two builders add to [hashes] is an index of the
    bitmap. *)
Lemma rtc_table_step_adds g g' :
  rtc table_step g g' → ∀ h, h ∈ hashes g' → h ∈ hashes g ∨ 0 ≤ h < M.
Proof.
  induction 1 as [g|g1 g2 g3 Hstep _ IH]; [by left|].
  intros h [Hh|Hh]%IH; [|by right].
  destruct Hstep as [g0|g0 cur p|g0|g0 BB]; simpl in Hh; [by left| |by left|].
  - unfold fhash_edge in Hh. destruct (first_free _ _) as [i|] eqn:Hff; [|by left].
    apply first_free_seqZ in Hff as (Hi & _). simpl in Hh.
    apply elem_of_union in Hh as [->%elem_of_singleton|Hh]; [by right | by left].
  - unfold single_block in Hh. destruct (first_free _ _) as [i|] eqn:Hff; [|by left].
    apply first_free_seqZ in Hff as (Hi & _). simpl in Hh.
    apply elem_of_union in Hh as [->%elem_of_singleton|Hh]; [by right | by left].
Qed.

Lemma in_range_size g : in_range g → (size (hashes g) ≤ Z.to_nat M)%nat.
Proof.
  intros Hg.
  assert (Hsub : hashes g ⊆ list_to_set (seqZ 0 M)).
  { intros h Hh. apply elem_of_list_to_set, elem_of_seqZ. specialize (Hg h Hh). lia. }
  apply subseteq_size in Hsub.
  rewrite size_list_to_set in Hsub by apply NoDup_seqZ.
  by rewrite length_seqZ in Hsub.
Qed.

Section BoundedKeys.

(** The keys are bitmap indices. *)
Hypothesis keys_bounded : ∀ BB k, keys !! BB = Some k → 0 ≤ k < M.

Lemma key_of_bounded BB : 0 ≤ MAP_SIZE_POW2 → 0 ≤ key_of BB < M.
Proof.
  intros HP. unfold key_of.
  destruct (keys !! BB) as [k|] eqn:Hk; simpl; [by apply (keys_bounded BB)|].
  unfold MAP_SIZE. split; [done|]. by apply Z.pow_pos_nonneg.
Qed.

Lemma candidate_in_range BB y x g z :
  y ∈ param_range → x ∈ param_range → z ∈ param_range →
  in_range g → in_range (candidate BB y x g z).
Proof.
  rewrite !param_range_bounds. intros Hy Hx Hz Hg.
  unfold candidate. destruct (accepts _ _ _ _); [|done].
  intros h [Hh|Hh]%elem_of_union; [by apply Hg|].
  rewrite edge_hashes_slots, elem_of_list_to_set in Hh.
  unfold edge_slots in Hh. simpl in Hh.
  apply list_elem_of_fmap in Hh as (p & -> & _).
  apply edgeHash_bound; try done; apply key_of_bounded; lia.
Qed.

Lemma round_in_range y g : y ∈ param_range → in_range (round y g).
Proof.
  intros Hy. unfold round. apply (foldl_inv in_range).
  - intros h Hh. simpl in Hh. by apply not_elem_of_empty in Hh.
  - intros g1 BB _ Hg1. unfold process_block, in_range. simpl.
    change (in_range (search_x BB y g1)).
    unfold search_x. apply (foldl_inv in_range); [done|].
    intros g2 x Hx Hg2. unfold search_z. apply (foldl_inv in_range); [done|].
    intros g3 z Hz Hg3. by apply candidate_in_range.
Qed.

Lemma calcFmul_in_range g : in_range g → in_range (calcFmul g).
Proof.
  intros Hg. unfold calcFmul.
  destruct (sweep_cases param_range g) as [[_ ->]|(y & g0 & Hy & ->)]; [done|].
  by apply round_in_range.
Qed.

Lemma reached_in_range g : rtc table_step (calcFmul init) g → in_range g.
Proof.
  intros Hreach.
  assert (Hstart : in_range (calcFmul init)).
  { apply calcFmul_in_range. intros h Hh. by apply not_elem_of_empty in Hh. }
  induction Hreach as [|g1 g2 g3 Hstep _ IH]; [done|].
  apply IH. by apply (table_step_in_range g1).
Qed.

End BoundedKeys.


(** *** The claims about the solver and the table builders *)

(** C2. After the solver, the fallback table builder and the
    single-predecessor table builder have run, the edge hashes of the
    blocks with parameters (under their final parameters), the values of
    [hashMap] and the values of [singleMap], taken together, contain no
    slot twice.  This holds for every [MAP_SIZE_POW2], every block list,
    every key map and every predecessor map. *)
Theorem C2_no_slot_shared :
  NoDup (all_slots (calcSingle (calcFhash (calcFmul init)))).
Proof. apply tables_inv_NoDup, builders_inv. Qed.

(** C3 (as the code has it). When every index of [0 .. MAP_SIZE-1] is in
    [hashes], the scan falls through: the step for an edge and the step
    for a block leave the globals as they are, no entry is stored and
    nothing is signalled, and the builders go on with the remaining edges
    and blocks, which are skipped the same way. *)
Theorem C3_exhaustion_is_silent g :
  (∀ i, 0 ≤ i < M → i ∈ hashes g) →
  first_free (slot_range MAP_SIZE_POW2) (hashes g) = None ∧
  (∀ cur p, fhash_edge cur g p = g) ∧
  (∀ BB, fhash_block g BB = g ∧ single_block g BB = g) ∧
  (∀ l, foldl fhash_block g l = g ∧ foldl single_block g l = g).
Proof.
  intros Hfull.
  assert (Hff : first_free (slot_range MAP_SIZE_POW2) (hashes g) = None).
  { apply first_free_None. intros j Hj%elem_of_seqZ. apply Hfull. lia. }
  assert (He : ∀ cur p, fhash_edge cur g p = g).
  { intros cur p. unfold fhash_edge. by rewrite Hff. }
  assert (Hs : ∀ BB, single_block g BB = g).
  { intros BB. unfold single_block. by rewrite Hff. }
  assert (Hb : ∀ BB, fhash_block g BB = g).
  { intros BB. unfold fhash_block.
    apply (foldl_inv (λ g', g' = g)); [done|]. intros g' p _ ->. apply He. }
  split_and!; [done | done | by split |].
  intros l. split.
  - apply (foldl_inv (λ g', g' = g)); [done|]. intros g' BB _ ->. apply Hb.
  - apply (foldl_inv (λ g', g' = g)); [done|]. intros g' BB _ ->. apply Hs.
Qed.

(** C4. In every round each multi-predecessor block is pushed on
    [unsolv] once its search is over, whether or not the search recorded
    it in [solv]; so [unsolv] is [multiBBS] at the end of every round and
    at the end of [calcFmul] (when a round is run at all), it contains
    every solved block, and it is the list [calcFhash] walks. *)
Theorem C4_unsolv_holds_every_block :
  (∀ y g BB, unsolv (process_block y g BB) = unsolv g ++ [BB]) ∧
  (∀ y g, unsolv (round y g) = multiBBS) ∧
  (∀ y g BB, BB ∈ solv (round y g) → BB ∈ unsolv (round y g)) ∧
  (∀ g, 2 ≤ MAP_SIZE_POW2 →
     unsolv (calcFmul g) = multiBBS ∧
     ∀ BB, BB ∈ solv (calcFmul g) → BB ∈ unsolv (calcFmul g)) ∧
  (∀ g, calcFhash g =
        foldl fhash_block
          (Globals (hashes g) (tmpHashSet g) (solv g) (unsolv g) (params g) ∅ (singleMap g))
          (unsolv g)).
Proof.
  split_and!.
  - apply process_block_unsolv.
  - apply round_unsolv.
  - apply round_solv_unsolv.
  - intros g HP. unfold calcFmul.
    destruct (sweep_cases param_range g) as [[Hnil _]|(y & g0 & _ & ->)].
    + exfalso. assert (1 ∈ param_range) as Hin by (apply param_range_bounds; lia).
      rewrite Hnil in Hin. by apply elem_of_nil in Hin.
    + split; [apply round_unsolv | apply round_solv_unsolv].
  - done.
Qed.

(** C5. A block that [calcFmul] leaves with parameters [(x, y, z)] has
    pairwise distinct edge hashes under them: evaluating the hash on the
    entries of [preds[BB]] gives as many distinct values as there are
    entries. *)
Theorem C5_solved_hashes_distinct BB x y z :
  params (calcFmul init) !! BB = Some (x, y, z) →
  NoDup ((λ p, edgeHash (key_of BB) (key_of p) x y z) <$> preds_of BB) ∧
  size (list_to_set ((λ p, edgeHash (key_of BB) (key_of p) x y z) <$> preds_of BB) : gset Z)
  = length (preds_of BB).
Proof.
  intros Hp.
  destruct (calcFmul_solved_inv init init_solved_inv) as [Hown _].
  destruct (Hown BB (x, y, z) Hp) as [Hnd _].
  unfold edge_slots in Hnd. simpl in Hnd.
  split; [done|]. rewrite size_list_to_set by done. by rewrite length_fmap.
Qed.

(** C6. With [unsigned int] keys and parameters from the search ranges
    [1 .. MAP_SIZE_POW2 - 1] (shift counts below the width of
    [unsigned int]), the hash the solver
    computes for predecessor key [kp] of a block with key [cur] is
    [(cur >> x) XOR ((kp >> y) + z)]: [z] is added to the shifted
    predecessor key before the xor, and the 32-bit addition never wraps.
    So [tmpHashSet] holds exactly these values, one for each entry of
    [preds[BB]]. *)
Theorem C6_edge_hash_formula x y z :
  MAP_SIZE_POW2 ≤ 32 →
  1 ≤ x < MAP_SIZE_POW2 → 1 ≤ y < MAP_SIZE_POW2 → 1 ≤ z < MAP_SIZE_POW2 →
  (∀ cur kp, 0 ≤ cur < 2 ^ 32 → 0 ≤ kp < 2 ^ 32 →
     edgeHash cur kp x y z = Z.lxor (Z.shiftr cur x) (Z.shiftr kp y + z)) ∧
  ((∀ BB k, keys !! BB = Some k → 0 ≤ k < 2 ^ 32) →
   ∀ BB, edge_hashes BB x y z =
         list_to_set ((λ p, Z.lxor (Z.shiftr (key_of BB) x) (Z.shiftr (key_of p) y + z))
                        <$> preds_of BB)).
Proof.
  intros HP Hx Hy Hz.
  assert (Heq : ∀ cur kp, 0 ≤ cur < 2 ^ 32 → 0 ≤ kp < 2 ^ 32 →
     edgeHash cur kp x y z = Z.lxor (Z.shiftr cur x) (Z.shiftr kp y + z)).
  { intros cur kp Hcur Hkp. unfold edgeHash. rewrite wrap32_small; [done|].
    pose proof (shiftr_bound kp 32 y Hkp ltac:(lia)) as Hb.
    assert (2 ^ (32 - y) ≤ 2 ^ 31) by (apply Z.pow_le_mono_r; lia).
    lia. }
  split; [done|].
  intros Hkeys BB.
  assert (Hkey : ∀ b, 0 ≤ key_of b < 2 ^ 32).
  { intros b. unfold key_of.
    destruct (keys !! b) as [k|] eqn:Hk; simpl; [by apply (Hkeys b) | lia]. }
  rewrite edge_hashes_slots. unfold edge_slots. simpl.
  f_equal. apply list_fmap_ext. intros _ p _. by apply Heq.
Qed.




(** *** More on the solver *)

Lemma candidate_books BB y x g z :
  BB ∈ multiBBS → 1 ≤ x < MAP_SIZE_POW2 → 1 ≤ z < MAP_SIZE_POW2 →
  round_books y g → round_books y (candidate BB y x g z).
Proof.
  intros HBB Hx Hz (Hdom & Hsub & Hpar). unfold candidate.
  destruct (accepts _ _ _ _); [|done]. split_and!; simpl.
  - intros B'. rewrite elem_of_app, list_elem_of_singleton, lookup_insert.
    case_decide as Heq; [subst; split; [by eexists | by right]|].
    rewrite Hdom. split; [by intros [?|?] | by left].
  - intros B' [HB'|HB']%elem_of_app; [by apply Hsub|].
    by apply list_elem_of_singleton in HB' as ->.
  - intros B' p. rewrite lookup_insert. case_decide; [|by apply Hpar].
    by intros [= <-].
Qed.

Lemma process_block_books y g BB :
  BB ∈ multiBBS → round_books y g → round_books y (process_block y g BB).
Proof.
  intros HBB Hg.
  assert (Hs : round_books y (search_x BB y g)).
  { unfold search_x. apply (foldl_inv (round_books y)); [done|].
    intros g1 x Hx%param_range_bounds Hg1.
    unfold search_z. apply (foldl_inv (round_books y)); [done|].
    intros g2 z Hz%param_range_bounds Hg2. by apply candidate_books. }
  exact Hs.
Qed.

Lemma round_round_books y g : round_books y (round y g).
Proof.
  unfold round. apply (foldl_inv (round_books y)).
  - split_and!; simpl.
    + intros BB. rewrite lookup_empty. split; [by intros ?%elem_of_nil | by intros [? ?]].
    + by intros BB ?%elem_of_nil.
    + intros BB p. by rewrite lookup_empty.
  - intros g' BB HBB. by apply process_block_books.
Qed.

Lemma candidate_counted BB y x g z :
  hashes_counted g → hashes_counted (candidate BB y x g z).
Proof.
  unfold hashes_counted, candidate, accepts. intros Hg.
  destruct (_ && _) eqn:Hacc; [|done]. simpl.
  apply andb_true_iff in Hacc as [Hsz%Nat.eqb_eq Hdisj%disjoint_spec].
  rewrite size_union by done.
  rewrite sum_list_with_app. simpl. lia.
Qed.

Lemma round_counted y g : hashes_counted (round y g).
Proof.
  unfold round. apply (foldl_inv hashes_counted).
  - reflexivity.
  - intros g1 BB _ Hg1. unfold process_block, hashes_counted. simpl.
    change (hashes_counted (search_x BB y g1)).
    unfold search_x. apply (foldl_inv hashes_counted); [done|].
    intros g2 x _ Hg2. unfold search_z. apply (foldl_inv hashes_counted); [done|].
    intros g3 z _. apply candidate_counted.
Qed.

(** X2. At the end of every round a block is in [solv] exactly when it
    has an entry in [params]; such a block is one of [multiBBS], and its
    entry holds the round's [y] with [x] and [z] from
    [1 .. MAP_SIZE_POW2-1].  So every parameter triple [calcFmul] leaves
    behind belongs to a block of [multiBBS] and has all three components
    in that range. *)
Theorem X2_solver_bookkeeping :
  (∀ y g BB,
     (BB ∈ solv (round y g) ↔ is_Some (params (round y g) !! BB)) ∧
     (BB ∈ solv (round y g) → BB ∈ multiBBS) ∧
     (∀ x y' z, params (round y g) !! BB = Some (x, y', z) →
        y' = y ∧ 1 ≤ x < MAP_SIZE_POW2 ∧ 1 ≤ z < MAP_SIZE_POW2)) ∧
  (∀ BB x y z, params (calcFmul init) !! BB = Some (x, y, z) →
     BB ∈ multiBBS ∧ BB ∈ solv (calcFmul init) ∧
     1 ≤ x < MAP_SIZE_POW2 ∧ 1 ≤ y < MAP_SIZE_POW2 ∧ 1 ≤ z < MAP_SIZE_POW2).
Proof.
  split.
  - intros y g BB. destruct (round_round_books y g) as (Hdom & Hsub & Hpar).
    split_and!; [apply Hdom | apply Hsub|].
    intros x y' z Hp. exact (Hpar BB (x, y', z) Hp).
  - intros BB x y z. unfold calcFmul.
    destruct (sweep_cases param_range init) as [[_ ->]|(y0 & g0 & Hy0 & ->)].
    + simpl. by rewrite lookup_empty.
    + intros Hp. destruct (round_round_books y0 g0) as (Hdom & Hsub & Hpar).
      destruct (Hpar BB (x, y, z) Hp) as (Hy & Hx & Hz). simpl in *. subst y0.
      assert (BB ∈ solv (round y g0)) by (apply Hdom; by eexists).
      apply param_range_bounds in Hy0. split_and!; try done; try lia. by apply Hsub.
Qed.

(** X3. At the end of every round the number of claimed hashes is the
    number of predecessor entries of the blocks in [solv], a block
    counting as often as it is in [solv]: every acceptance claims one
    fresh slot for each incoming edge. *)
Theorem X3_hashes_counted y g :
  size (hashes (round y g))
  = sum_list_with (λ BB, length (preds_of BB)) (solv (round y g)).
Proof. apply round_counted. Qed.

(** X4. With fewer than ten blocks in [multiBBS] the sweep never goes
    beyond its first round: [unsolv] holds every block, so the test
    [sizeofUnsolv < delta] ends the sweep after [y = 1], whatever was
    solved. *)
Theorem X4_small_input_stops_at_first_round g :
  (length multiBBS < 10)%nat → 2 ≤ MAP_SIZE_POW2 →
  sweep param_range g = (Some 1, round 1 g) ∧ calcFmul g = round 1 g.
Proof.
  intros Hlen HP.
  assert (Hs : sweep param_range g = (Some 1, round 1 g)).
  { unfold param_range. rewrite seqZ_cons by lia. simpl.
    assert (Hb : sweep_break (round 1 g) = true); [|by rewrite Hb].
    unfold sweep_break. rewrite round_unsolv.
    apply orb_true_iff. left. apply Z.ltb_lt. unfold delta. lia. }
  split; [done|]. unfold calcFmul. by rewrite Hs.
Qed.

(** X5. No builder writes what belongs to another: [calcFmul] leaves
    both tables alone; [calcFhash] leaves [params], [solv], [unsolv],
    [tmpHashSet] and [singleMap] alone; [calcSingle] leaves [params],
    [solv], [unsolv], [tmpHashSet] and [hashMap] alone. *)
Theorem X5_builders_keep_to_their_fields g :
  (hashMap (calcFmul g) = hashMap g ∧ singleMap (calcFmul g) = singleMap g) ∧
  (params (calcFhash g) = params g ∧ solv (calcFhash g) = solv g ∧
   unsolv (calcFhash g) = unsolv g ∧ tmpHashSet (calcFhash g) = tmpHashSet g ∧
   singleMap (calcFhash g) = singleMap g) ∧
  (params (calcSingle g) = params g ∧ solv (calcSingle g) = solv g ∧
   unsolv (calcSingle g) = unsolv g ∧ tmpHashSet (calcSingle g) = tmpHashSet g ∧
   hashMap (calcSingle g) = hashMap g).
Proof.
  split_and!; try apply sweep_tables.
  all: unfold calcFhash, calcSingle.
  all: try (apply (foldl_inv (λ g', params g' = params g)); [done|]).
  all: try (apply (foldl_inv (λ g', solv g' = solv g)); [done|]).
  all: try (apply (foldl_inv (λ g', unsolv g' = unsolv g)); [done|]).
  all: try (apply (foldl_inv (λ g', tmpHashSet g' = tmpHashSet g)); [done|]).
  all: try (apply (foldl_inv (λ g', singleMap g' = singleMap g)); [done|]).
  all: try (apply (foldl_inv (λ g', hashMap g' = hashMap g)); [done|]).
  all: intros g1 BB _ <-; unfold fhash_block, single_block.
  all: try (by destruct (first_free _ _)).
  all: (apply (foldl_inv (λ g', params g' = params g1))
        || apply (foldl_inv (λ g', solv g' = solv g1))
        || apply (foldl_inv (λ g', unsolv g' = unsolv g1))
        || apply (foldl_inv (λ g', tmpHashSet g' = tmpHashSet g1))
        || apply (foldl_inv (λ g', singleMap g' = singleMap g1))); [done|..].
  all: intros g2 p _ <-; unfold fhash_edge; by destruct (first_free _ _).
Qed.

(** *** More on the table builders *)

Lemma fhash_blocks_edges l g : foldl fhash_block g l = foldl edge_step g (edges_of l).
Proof.
  revert g. induction l as [|BB l IH]; intros g; [done|].
  unfold edges_of. rewrite bind_cons, foldl_app. simpl. rewrite IH. f_equal.
  unfold fhash_block. generalize (preds_of BB). intros ps. revert g.
  induction ps as [|p ps IHp]; intros g; [done|]. simpl. by rewrite IHp.
Qed.

Lemma edge_step_spec g e :
  match first_free (seqZ 0 M) (hashes g) with
  | Some i => hashes (edge_step g e) = {[ i ]} ∪ hashes g ∧
              hashMap (edge_step g e) = <[(key_of e.1, key_of e.2) := i]> (hashMap g)
  | None => edge_step g e = g
  end.
Proof.
  unfold edge_step, fhash_edge, slot_range. by destruct (first_free _ _).
Qed.

Lemma single_block_spec g BB :
  match first_free (seqZ 0 M) (hashes g) with
  | Some i => hashes (single_block g BB) = {[ i ]} ∪ hashes g ∧
              singleMap (single_block g BB) = <[key_of BB := i]> (singleMap g)
  | None => single_block g BB = g
  end.
Proof.
  unfold single_block, slot_range. by destruct (first_free _ _).
Qed.

Lemma calcFhash_edges g :
  calcFhash g
  = foldl edge_step
      (Globals (hashes g) (tmpHashSet g) (solv g) (unsolv g) (params g) ∅ (singleMap g))
      (edges_of (unsolv g)).
Proof. unfold calcFhash. apply fhash_blocks_edges. Qed.

Lemma elem_of_edges_of l BB p : (BB, p) ∈ edges_of l ↔ BB ∈ l ∧ p ∈ preds_of BB.
Proof.
  unfold edges_of. rewrite list_elem_of_bind. split.
  - by intros (B' & (q & [= -> ->] & Hq)%list_elem_of_fmap & HB').
  - intros [HBB Hp]. exists BB. split; [|done]. apply list_elem_of_fmap. by exists p.
Qed.

Lemma foldl_rel {A B} (R : A → A → Prop) (f : A → B → A) (l : list B) (a a' : A) :
  R a a' → (∀ a a' b, R a a' → R (f a b) (f a' b)) → R (foldl f a l) (foldl f a' l).
Proof.
  intros Ha Hstep. revert a a' Ha.
  induction l as [|b l IH]; intros a a' Ha; simpl; [done|]. apply IH. by apply Hstep.
Qed.

Lemma candidate_same BB y x g g' z :
  same_solver_state g g' →
  same_solver_state (candidate BB y x g z) (candidate BB y x g' z).
Proof.
  intros (Hh & Hs & Hu & Hp). unfold candidate, accepts. rewrite Hh.
  destruct (_ && _); split_and!; simpl; congruence.
Qed.

Lemma round_same y g g' : same_solver_state (round y g) (round y g').
Proof.
  unfold round. apply (foldl_rel same_solver_state); [done|].
  intros g1 g1' BB Hg1.
  assert (Hs : same_solver_state (search_x BB y g1) (search_x BB y g1')).
  { unfold search_x. apply (foldl_rel same_solver_state); [done|].
    intros g2 g2' x Hg2. unfold search_z. apply (foldl_rel same_solver_state); [done|].
    intros g3 g3' z. apply candidate_same. }
  destruct Hs as (Hh & Hs & Hu & Hp). unfold process_block.
  split_and!; simpl; congruence.
Qed.

Lemma sweep_break_same g g' : same_solver_state g g' → sweep_break g = sweep_break g'.
Proof.
  intros (_ & Hs & Hu & _). unfold sweep_break, unsolved_ratio. by rewrite Hs, Hu.
Qed.

Lemma sweep_same ys g g' :
  ys ≠ [] →
  (sweep ys g).1 = (sweep ys g').1 ∧ same_solver_state (sweep ys g).2 (sweep ys g').2.
Proof.
  revert g g'. induction ys as [|y ys IH]; intros g g' Hne; [done|]. simpl.
  pose proof (round_same y g g') as Hr.
  rewrite <- (sweep_break_same _ _ Hr).
  destruct (sweep_break (round y g)); [done|].
  destruct ys as [|y' ys']; [done|]. by apply IH.
Qed.

(** X6. When a round is run at all ([2 <= MAP_SIZE_POW2]), what
    [calcFmul] leaves in [hashes], [solv], [unsolv] and [params], and the
    round at which it stops, do not depend on the globals it was started
    with: every round clears the four and rebuilds them from the inputs
    alone. *)
Theorem X6_solver_forgets_earlier_state g g' :
  2 ≤ MAP_SIZE_POW2 →
  (sweep param_range g).1 = (sweep param_range g').1 ∧
  hashes (calcFmul g) = hashes (calcFmul g') ∧
  solv (calcFmul g) = solv (calcFmul g') ∧
  unsolv (calcFmul g) = unsolv (calcFmul g') ∧
  params (calcFmul g) = params (calcFmul g').
Proof.
  intros HP. apply sweep_same.
  intros Hnil. assert (1 ∈ param_range) as Hin by (apply param_range_bounds; lia).
  rewrite Hnil in Hin. by apply elem_of_nil in Hin.
Qed.

Lemma edge_step_edge_inv g e : edge_table_inv g → edge_table_inv (edge_step g e).
Proof.
  intros (Hsolved & Htab & Htab_s). unfold edge_step, fhash_edge.
  destruct (first_free _ _) as [i|] eqn:Hff; [|done].
  apply first_free_Some in Hff as (_ & _ & _ & Hi & _).
  split_and!; simpl.
  - apply (solved_inv_mono g); [done | set_solver | done].
  - by apply owned_insert.
  - apply avoids_insert; [done|]. intros Hs. apply Hi. by apply in_solved_claimed.
Qed.

Lemma calcFhash_edge_inv g : solved_inv g → edge_table_inv (calcFhash g).
Proof.
  intros Hg. rewrite calcFhash_edges. apply (foldl_inv edge_table_inv).
  - split_and!; simpl; [done | apply owned_empty | apply avoids_empty].
  - intros g' e _. apply edge_step_edge_inv.
Qed.

Lemma calcSingle_tables_inv g : edge_table_inv g → tables_inv (calcSingle g).
Proof.
  intros (Hsolved & Htab & Htab_s). unfold calcSingle. apply (foldl_inv tables_inv).
  - split_and!; simpl; try done; try apply owned_empty; apply avoids_empty.
  - intros g' BB _. apply single_block_inv.
Qed.

(** X7. When a round is run at all, the three builders in sequence
    leave no slot shared whatever the globals held before: the solver
    rebuilds its part in its first round, and each table builder clears
    its table before filling it. *)
Theorem X7_no_slot_shared_from_any_state g :
  2 ≤ MAP_SIZE_POW2 →
  NoDup (all_slots (calcSingle (calcFhash (calcFmul g)))).
Proof.
  intros HP. apply tables_inv_NoDup, calcSingle_tables_inv, calcFhash_edge_inv.
  unfold calcFmul.
  destruct (sweep_cases param_range g) as [[Hnil _]|(y & g0 & _ & ->)];
    [|apply round_solved_inv].
  exfalso. assert (1 ∈ param_range) as Hin by (apply param_range_bounds; lia).
  rewrite Hnil in Hin. by apply elem_of_nil in Hin.
Qed.

(** X8. Started on any globals, [calcFhash] fills [hashMap] with slots
    that are indices of [0 .. MAP_SIZE-1], that were not claimed when it
    started, that are claimed when it ends, and of which no two entries
    share one; [calcSingle] does the same for [singleMap]. *)
Theorem X8_table_slots_are_fresh_indices g :
  (∀ k v, hashMap (calcFhash g) !! k = Some v →
     0 ≤ v < M ∧ v ∉ hashes g ∧ v ∈ hashes (calcFhash g) ∧
     ∀ k', hashMap (calcFhash g) !! k' = Some v → k' = k) ∧
  (∀ k v, singleMap (calcSingle g) !! k = Some v →
     0 ≤ v < M ∧ v ∉ hashes g ∧ v ∈ hashes (calcSingle g) ∧
     ∀ k', singleMap (calcSingle g) !! k' = Some v → k' = k).
Proof.
  split.
  - set (g0 := Globals (hashes g) (tmpHashSet g) (solv g) (unsolv g) (params g) ∅ (singleMap g)).
    pose proof (claiming_slots_ok M edge_step hashMap
                  (λ e, (key_of e.1, key_of e.2)) edge_step_spec
                  (edges_of (unsolv g)) g0) as Hok.
    pose proof (claiming_fresh M edge_step hashMap
                  (λ e, (key_of e.1, key_of e.2)) edge_step_spec
                  (edges_of (unsolv g)) g0 (hashes g)) as Hfresh.
    subst g0. rewrite <- calcFhash_edges in Hok, Hfresh.
    destruct Hfresh as (_ & [Hin Hinj] & Hav);
      [done | apply owned_empty | apply avoids_empty |].
    intros k v Hk. destruct (Hok ltac:(intros ??; simpl; by rewrite lookup_empty) k v Hk).
    split; [done|]. split; [by apply (Hav k v)|]. split; [done|].
    intros k' Hk'. by apply (Hinj k' k v).
  - set (g0 := Globals (hashes g) (tmpHashSet g) (solv g) (unsolv g) (params g) (hashMap g) ∅).
    pose proof (claiming_slots_ok M single_block singleMap key_of single_block_spec
                  singleBBS g0) as Hok.
    pose proof (claiming_fresh M single_block singleMap key_of single_block_spec
                  singleBBS g0 (hashes g)) as Hfresh.
    destruct Hfresh as (_ & [Hin Hinj] & Hav);
      [done | apply owned_empty | apply avoids_empty |].
    intros k v Hk. destruct (Hok ltac:(intros ??; simpl; by rewrite lookup_empty) k v Hk).
    split; [done|]. split; [by apply (Hav k v)|]. split; [done|].
    intros k' Hk'. by apply (Hinj k' k v).
Qed.

(** X9. [calcFhash] claims one free index for each edge it walks until
    none is left: the number of claimed slots grows by the number of
    edges or by the number of free indices, whichever is smaller, and the
    number of free indices shrinks by the same amount.  [calcSingle] does
    the same with one index for each block of [singleBBS]. *)
Theorem X9_occupancy_count g :
  (size (hashes (calcFhash g))
   = (size (hashes g) + (length (edges_of (unsolv g)) `min` size (free_slots g)))%nat ∧
   size (free_slots (calcFhash g))
   = (size (free_slots g) - length (edges_of (unsolv g)))%nat) ∧
  (size (hashes (calcSingle g))
   = (size (hashes g) + (length singleBBS `min` size (free_slots g)))%nat ∧
   size (free_slots (calcSingle g)) = (size (free_slots g) - length singleBBS)%nat).
Proof.
  split.
  - set (g0 := Globals (hashes g) (tmpHashSet g) (solv g) (unsolv g) (params g) ∅ (singleMap g)).
    destruct (claiming_count M edge_step hashMap
                (λ e, (key_of e.1, key_of e.2)) edge_step_spec
                (edges_of (unsolv g)) g0) as [Hf Hh].
    subst g0. rewrite <- calcFhash_edges in Hf, Hh. split; [exact Hh | exact Hf].
  - set (g0 := Globals (hashes g) (tmpHashSet g) (solv g) (unsolv g) (params g) (hashMap g) ∅).
    destruct (claiming_count M single_block singleMap key_of single_block_spec
                singleBBS g0) as [Hf Hh].
    split; [exact Hh | exact Hf].
Qed.

(** X10. When the free indices are at least as many as the edges
    [calcFhash] walks, every edge of every block of [unsolv] ends with an
    entry in [hashMap]; when they are at least as many as the blocks of
    [singleBBS], every one of them ends with an entry in [singleMap]. *)
Theorem X10_enough_slots_cover_all g :
  ((length (edges_of (unsolv g)) ≤ size (free_slots g))%nat →
   ∀ BB p, BB ∈ unsolv g → p ∈ preds_of BB →
     is_Some (hashMap (calcFhash g) !! (key_of BB, key_of p))) ∧
  ((length singleBBS ≤ size (free_slots g))%nat →
   ∀ BB, BB ∈ singleBBS → is_Some (singleMap (calcSingle g) !! key_of BB)).
Proof.
  split.
  - intros Hlen BB p HBB Hp. rewrite calcFhash_edges.
    apply (claiming_covers M edge_step hashMap
             (λ e, (key_of e.1, key_of e.2)) edge_step_spec
             (edges_of (unsolv g))
             (Globals (hashes g) (tmpHashSet g) (solv g) (unsolv g) (params g) ∅ (singleMap g))
             Hlen (BB, p)).
    by apply elem_of_edges_of.
  - intros Hlen BB HBB.
    by apply (claiming_covers M single_block singleMap key_of single_block_spec
                singleBBS
                (Globals (hashes g) (tmpHashSet g) (solv g) (unsolv g) (params g) (hashMap g) ∅)
                Hlen BB).
Qed.

Lemma foldl_grows_by {A B} (μ : A → nat) (c : nat) (f : A → B → A) (l : list B) (a : A) :
  (∀ a b, μ (f a b) ≤ μ a + c)%nat → (μ (foldl f a l) ≤ μ a + c * length l)%nat.
Proof.
  intros Hstep. revert a. induction l as [|b l IH]; intros a; simpl; [lia|].
  specialize (IH (f a b)). specialize (Hstep a b). lia.
Qed.

(** X17. The keys of [hashMap] after [calcFhash] are key pairs of edges
    it walked, and the keys of [singleMap] after [calcSingle] are keys of
    blocks of [singleBBS]; with enough free indices these are all of
    them.  Entries are per key, not per block: [singleMap] then has as
    many entries as [singleBBS] has distinct keys, although one slot was
    claimed for every block. *)
Theorem X17_table_keys g :
  (dom (hashMap (calcFhash g))
     ⊆ list_to_set ((λ e, (key_of e.1, key_of e.2)) <$> edges_of (unsolv g)) ∧
   dom (singleMap (calcSingle g)) ⊆ list_to_set (key_of <$> singleBBS)) ∧
  ((length singleBBS ≤ size (free_slots g))%nat →
   dom (singleMap (calcSingle g)) = list_to_set (key_of <$> singleBBS) ∧
   size (singleMap (calcSingle g)) = length (remove_dups (key_of <$> singleBBS)) ∧
   size (hashes (calcSingle g)) = (size (hashes g) + length singleBBS)%nat).
Proof.
  assert (Hsub : dom (singleMap (calcSingle g)) ⊆ list_to_set (key_of <$> singleBBS)).
  { etrans; [apply (claiming_dom M single_block singleMap key_of single_block_spec)|].
    simpl. rewrite dom_empty. set_solver. }
  split; [split; [|done]|].
  - rewrite calcFhash_edges.
    etrans; [apply (claiming_dom M edge_step hashMap
                      (λ e, (key_of e.1, key_of e.2)) edge_step_spec)|].
    simpl. rewrite dom_empty. set_solver.
  - intros Hlen.
    assert (Hdom : dom (singleMap (calcSingle g)) = list_to_set (key_of <$> singleBBS)).
    { apply set_eq. intros k. split; [apply Hsub|].
      intros (BB & -> & HBB)%elem_of_list_to_set%list_elem_of_fmap.
      apply elem_of_dom.
      by apply (claiming_covers M single_block singleMap key_of single_block_spec
                  singleBBS
                  (Globals (hashes g) (tmpHashSet g) (solv g) (unsolv g) (params g)
                           (hashMap g) ∅)
                  Hlen BB). }
    split; [done|]. split.
    + assert (Hrd : (list_to_set (remove_dups (key_of <$> singleBBS)) : gset Z)
                      = list_to_set (key_of <$> singleBBS)).
      { apply set_eq. intros k. by rewrite !elem_of_list_to_set, elem_of_remove_dups. }
      rewrite <- size_dom, Hdom, <- Hrd.
      apply size_list_to_set, NoDup_remove_dups.
    + destruct (claiming_count M single_block singleMap key_of single_block_spec
                  singleBBS
                  (Globals (hashes g) (tmpHashSet g) (solv g) (unsolv g) (params g)
                           (hashMap g) ∅)) as [_ Hh].
      unfold calcSingle. rewrite Hh. simpl.
      unfold free_slots, slot_range in Hlen. lia.
Qed.

(** X18. In one round a block enters [solv] at most once for each
    candidate [(x, z)], that is at most [(MAP_SIZE_POW2 - 1)^2] times, so
    [solv] is at most that many times as long as [multiBBS]. *)
Theorem X18_solv_length_bound y g :
  (length (solv (round y g))
   ≤ Z.to_nat (MAP_SIZE_POW2 - 1) * Z.to_nat (MAP_SIZE_POW2 - 1) * length multiBBS)%nat.
Proof.
  unfold round.
  pose proof (foldl_grows_by (λ g', length (solv g'))
                (Z.to_nat (MAP_SIZE_POW2 - 1) * Z.to_nat (MAP_SIZE_POW2 - 1))
                (process_block y) multiBBS (clear_round g)) as Hround.
  simpl in Hround. apply Hround. clear Hround.
  intros g1 BB. unfold process_block. simpl. unfold search_x.
  pose proof (foldl_grows_by (λ g', length (solv g')) (Z.to_nat (MAP_SIZE_POW2 - 1))
                (search_z BB y) param_range g1) as Hx.
  unfold param_range in Hx at 2. rewrite length_seqZ in Hx.
  etrans; [apply Hx|lia]. clear Hx.
  intros g2 x. unfold search_z.
  pose proof (foldl_grows_by (λ g', length (solv g')) 1
                (candidate BB y x) param_range g2) as Hz.
  unfold param_range in Hz at 2. rewrite length_seqZ in Hz.
  etrans; [apply Hz|lia]. clear Hz.
  intros g3 z. unfold candidate. destruct (accepts _ _ _ _); simpl; [|lia].
  rewrite length_app. simpl. lia.
Qed.


(** *** A block without predecessors *)

Lemma foldl_reach {A B} (Q : A → Prop) (f : A → B → A) (l : list B) (a : A) (b : B) :
  b ∈ l → (∀ a, Q (f a b)) → (∀ a b', Q a → Q (f a b')) → Q (foldl f a l).
Proof.
  intros Hb Hhit Hkeep. revert a.
  induction l as [|b0 l IH]; intros a; [by apply elem_of_nil in Hb|].
  simpl. apply elem_of_cons in Hb as [->|Hb]; [|by apply IH].
  apply (foldl_inv Q); [apply Hhit | intros a' b' _; apply Hkeep].
Qed.

Lemma candidate_solv_grows BB y x g z b : b ∈ solv g → b ∈ solv (candidate BB y x g z).
Proof.
  unfold candidate. destruct (accepts _ _ _ _); [|done]. simpl.
  intros Hb. apply elem_of_app. by left.
Qed.

Lemma search_x_solv_grows BB y g b : b ∈ solv g → b ∈ solv (search_x BB y g).
Proof.
  intros Hb. unfold search_x. apply (foldl_inv (λ g', b ∈ solv g')); [done|].
  intros g1 x _ Hg1. unfold search_z. apply (foldl_inv (λ g', b ∈ solv g')); [done|].
  intros g2 z _. apply candidate_solv_grows.
Qed.

Lemma candidate_no_preds BB y x g z :
  preds_of BB = [] →
  BB ∈ solv (candidate BB y x g z) ∧ hashes (candidate BB y x g z) = hashes g.
Proof.
  intros Hnil. unfold candidate, accepts, edge_hashes. rewrite Hnil. simpl.
  assert (Hd : disjoint ∅ (hashes g) = true) by (apply disjoint_spec, disjoint_empty_l).
  rewrite Hd. simpl. split; [apply elem_of_app; right; by left | apply union_empty_r_L].
Qed.

(** X16. A block of [multiBBS] for which [preds] has no entry (or an
    empty one) has no edge hash to collide: every candidate is accepted.
    When a round is run at all, the block is in [solv] and has
    parameters at the end of every round, and its search claims no
    hash. *)
Theorem X16_block_without_predecessors BB y g :
  preds_of BB = [] → 2 ≤ MAP_SIZE_POW2 →
  hashes (search_x BB y g) = hashes g ∧
  (BB ∈ multiBBS →
   BB ∈ solv (round y g) ∧ is_Some (params (round y g) !! BB)).
Proof.
  intros Hnil HP. split.
  - unfold search_x. apply (foldl_inv (λ g', hashes g' = hashes g)); [done|].
    intros g1 x _ <-. unfold search_z.
    apply (foldl_inv (λ g', hashes g' = hashes g1)); [done|].
    intros g2 z _ <-. by apply candidate_no_preds.
  - intros HBB.
    assert (H1 : 1 ∈ param_range) by (apply param_range_bounds; lia).
    assert (Hsolv : BB ∈ solv (round y g)).
    { unfold round.
      apply (foldl_reach (λ g', BB ∈ solv g') _ _ _ BB HBB).
      - intros g1. unfold process_block. simpl. unfold search_x.
        apply (foldl_reach (λ g', BB ∈ solv g') _ _ _ 1 H1).
        + intros g2. unfold search_z.
          apply (foldl_reach (λ g', BB ∈ solv g') _ _ _ 1 H1).
          * intros g3. by apply candidate_no_preds.
          * intros g3 z. apply candidate_solv_grows.
        + intros g2 x Hg2. unfold search_z.
          apply (foldl_inv (λ g', BB ∈ solv g')); [done|].
          intros g3 z _. apply candidate_solv_grows.
      - intros g1 B' Hg1. unfold process_block. simpl. by apply search_x_solv_grows. }
    split; [done|]. by apply (round_round_books y g).
Qed.

End SolverFacts.

(** ** The pass entry point and the tables *)

Lemma foldl_commute {A B} (h : A → A) (f : A → B → A) (l : list B) (a : A) :
  (∀ a b, f (h a) b = h (f a b)) → foldl f (h a) l = h (foldl f a l).
Proof.
  intros Hc. revert a. induction l as [|b l IH]; intros a; simpl; [done|].
  by rewrite Hc, IH.
Qed.

Section PassFacts.

Context (MAP_SIZE_POW2 : Z) (random : nat → Z) (getenv : string → option string).
Context (isatty : Z → bool) (sscanf_u : string → option Z).

Local Abbreviation instrument_block := (instrument_block MAP_SIZE_POW2 random).
Local Abbreviation runOnModule := (runOnModule MAP_SIZE_POW2 random getenv isatty sscanf_u).
Local Abbreviation inserted_by := (inserted_by MAP_SIZE_POW2 random).
Local Abbreviation loop_inv := (loop_inv MAP_SIZE_POW2 random).
Local Abbreviation be_quiet := (be_quiet getenv isatty).

Lemma instrument_block_with_tables g inst_ratio st BB :
  instrument_block inst_ratio (loop_with_tables g st) BB
  = loop_with_tables g (instrument_block inst_ratio st BB).
Proof.
  destruct st as [[m w] n]. unfold loop_with_tables, instrument_block. simpl.
  by destruct (_ >=? _).
Qed.

Lemma block_loop_with_tables g inst_ratio st Fs :
  foldl (λ st F, foldl (instrument_block inst_ratio) st F) (loop_with_tables g st) Fs
  = loop_with_tables g (foldl (λ st F, foldl (instrument_block inst_ratio) st F) st Fs).
Proof.
  apply (foldl_commute (loop_with_tables g)). intros st' F.
  apply (foldl_commute (loop_with_tables g)). intros st'' BB.
  apply instrument_block_with_tables.
Qed.

Lemma runOnModule_with_tables m w g :
  runOnModule m (with_tables g w)
  = result_map (λ r, (r.1, with_tables g r.2)) (runOnModule m w).
Proof.
  unfold runOnModule.
  destruct (decide_inst_ratio getenv sscanf_u) as [inst_ratio|msg]; [|done].
  set (quiet := negb _).
  set (m0 := Module _ _ _).
  replace (m0, if quiet then with_tables g w else say Banner (with_tables g w), 0)
    with (loop_with_tables g (m0, if quiet then w else say Banner w, 0))
    by (by destruct quiet).
  simpl. rewrite block_loop_with_tables.
  destruct (foldl _ _ _) as [[m1 w1] n1]. simpl.
  destruct quiet; [done|]. by destruct (n1 =? 0).
Qed.

Lemma instrument_block_inv m0 w0 inst_ratio st BB :
  loop_inv m0 w0 st → loop_inv m0 w0 (instrument_block inst_ratio st BB).
Proof.
  destruct st as [[m w] n]. intros (Ht & Hle & new & Hins & Hran & Hnd).
  unfold instrument_block, loop_inv in *. simpl in *.
  destruct (_ >=? _); simpl.
  - split; [done|]. split; [lia|]. exists new. split_and!; [done| |done].
    eapply Forall_impl; [done|]. simpl. lia.
  - split; [done|]. split; [lia|].
    exists (new ++ [(BB, S (random_calls w))]). split_and!.
    + unfold inserted_by in *. simpl. rewrite Hins, fmap_app. by rewrite <- app_assoc.
    + rewrite fmap_app. apply Forall_app. split.
      * eapply Forall_impl; [done|]. simpl. lia.
      * apply Forall_singleton. simpl. lia.
    + rewrite fmap_app. apply NoDup_app. split_and!; [done| |apply NoDup_singleton].
      intros k Hk ->%list_elem_of_singleton.
      rewrite Forall_forall in Hran. specialize (Hran _ Hk). simpl in Hran. lia.
Qed.

(** C10. [runOnModule] neither reads nor writes the globals of the table
    builders: run with any other tables it does the same thing (same
    result, same module, same console, same calls to [random()]) and
    hands the tables back untouched.  The code it inserts into an
    instrumented block indexes the bitmap with
    [__afl_prev_loc XOR cur_loc], where [cur_loc] is the result of that
    block's own call to [random()], reduced modulo [MAP_SIZE]. *)
Theorem C10_instrumentation_ignores_tables :
  (∀ m w g,
     runOnModule m (with_tables g w)
     = result_map (λ r, (r.1, with_tables g r.2)) (runOnModule m w)) ∧
  (∀ m w b m' w', runOnModule m w = Returns (b, m', w') →
     tables w' = tables w ∧
     ∃ new : list (BasicBlock * nat),
       mod_inserted m'
       = mod_inserted m
         ++ ((λ e, (e.1, block_code (random e.2 mod MAP_SIZE MAP_SIZE_POW2))) <$> new) ∧
       NoDup new.*2) ∧
  (∀ cur_loc,
     bitmap_index (block_code cur_loc)
     = Some (CreateXor (CreateZExt (CreateLoad AFLPrevLoc) Int32Ty)
                       (ConstantInt Int32Ty cur_loc))).
Proof.
  split_and!; [apply runOnModule_with_tables | | done].
  intros m w b m' w'. unfold runOnModule.
  destruct (decide_inst_ratio getenv sscanf_u) as [inst_ratio|msg]; [|done].
  set (quiet := negb _).
  set (m0 := Module _ _ _).
  set (w0 := if quiet then w else say Banner w).
  assert (Hinv : loop_inv m0 w0
            (foldl (λ st F, foldl (instrument_block inst_ratio) st F) (m0, w0, 0)
                   (mod_functions m0))).
  { apply (foldl_inv (loop_inv m0 w0)).
    - split; [done|]. split; [done|]. exists []. split_and!.
      + unfold inserted_by. simpl. by rewrite app_nil_r.
      + constructor.
      + constructor.
    - intros st F _ Hst. apply (foldl_inv (loop_inv m0 w0)); [done|].
      intros st' BB _. apply instrument_block_inv. }
  simpl in *. destruct (foldl _ _ _) as [[m1 w1] n1].
  destruct Hinv as (Ht & _ & new & Hins & _ & Hnd). simpl in *.
  assert (Hw0 : tables w0 = tables w) by (unfold w0; by destruct quiet).
  intros [= _ <- <-]. split.
  - rewrite <- Hw0, <- Ht. destruct quiet; [done|]. by destruct (n1 =? 0).
  - by exists new.
Qed.

(** *** More on the pass entry point *)

Lemma foldl_concat {A B} (f : A → B → A) (ls : list (list B)) (a : A) :
  foldl (λ a l, foldl f a l) a ls = foldl f a (concat ls).
Proof.
  revert a. induction ls as [|l ls IH]; intros a; simpl; [done|].
  by rewrite foldl_app, IH.
Qed.

(** What the loop over the blocks does to its state. *)
Lemma block_loop_spec inst_ratio bs m w n m' w' n' :
  foldl (instrument_block inst_ratio) (m, w, n) bs = (m', w', n') →
  mod_functions m' = mod_functions m ∧ mod_globals m' = mod_globals m ∧
  tables w' = tables w ∧ console w' = console w ∧
  ∃ new : list (BasicBlock * Z),
    mod_inserted m' = mod_inserted m ++ ((λ e, (e.1, block_code e.2)) <$> new) ∧
    new.*1 `sublist_of` bs ∧
    n' = n + Z.of_nat (length new) ∧
    (0 ≤ MAP_SIZE_POW2 → Forall (λ c, 0 ≤ c < MAP_SIZE MAP_SIZE_POW2) new.*2) ∧
    (random_calls w + length bs ≤ random_calls w' ≤ random_calls w + 2 * length bs)%nat ∧
    (100 ≤ inst_ratio →
       new.*1 = bs ∧ random_calls w' = (random_calls w + 2 * length bs)%nat).
Proof.
  revert m w n. induction bs as [|BB bs IH]; intros m w n.
  - simpl. intros [= <- <- <-]. do 4 (split; [done|]). exists []. simpl.
    rewrite app_nil_r. split_and!; try done; lia.
  - cbn [foldl]. unfold instrument_block at 2. cbn [AFL_R].
    set (r := random (random_calls w) mod 100).
    assert (Hr : 0 ≤ r < 100) by (apply Z.mod_pos_bound; lia).
    destruct (r >=? inst_ratio) eqn:Hge.
    + intros Hfold. apply IH in Hfold
        as (Hf & Hg & Ht & Hc & new & Hins & Hsub & Hn & Hran & Hcalls & Hall).
      simpl in *. do 4 (split; [done|]). exists new.
      split; [done|]. split; [by apply sublist_cons|]. split; [done|].
      split; [done|]. split; [lia|].
      intros Hratio. apply Z.geb_le in Hge. lia.
    + set (cur_loc := random (S (random_calls w)) mod MAP_SIZE MAP_SIZE_POW2).
      intros Hfold. apply IH in Hfold
        as (Hf & Hg & Ht & Hc & new & Hins & Hsub & Hn & Hran & Hcalls & Hall).
      simpl in *. do 4 (split; [done|]). exists ((BB, cur_loc) :: new). simpl.
      split; [rewrite Hins; by rewrite <- app_assoc|].
      split; [by apply sublist_skip|]. split; [lia|].
      split; [|split; [lia|]].
      * intros HP. constructor; [|by apply Hran].
        apply Z.mod_pos_bound. unfold MAP_SIZE. by apply Z.pow_pos_nonneg.
      * intros Hratio. destruct (Hall Hratio) as [Hall1 Hall2].
        split; [f_equal; exact Hall1 | lia].
Qed.

Lemma decide_inst_ratio_Fatal msg :
  decide_inst_ratio getenv sscanf_u = Fatal msg ↔
  msg = "Bad value of AFL_INST_RATIO (must be between 1 and 100)" ∧
  ∃ s, getenv "AFL_INST_RATIO" = Some s ∧
       ∀ r, sscanf_u s = Some r → r = 0 ∨ 100 < r.
Proof.
  unfold decide_inst_ratio.
  destruct (getenv "AFL_INST_RATIO") as [s|]; [|split; [done | by intros (_ & s & ? & _)]].
  destruct (sscanf_u s) as [r|] eqn:Hs.
  - destruct ((r =? 0) || (r >? 100)) eqn:Hbad.
    + apply orb_true_iff in Hbad. rewrite Z.eqb_eq, Z.gtb_gt in Hbad. split.
      * intros [= <-]. split; [done|]. exists s. split; [done|].
        intros r' Hr'. rewrite Hs in Hr'. injection Hr' as <-. lia.
      * by intros [-> _].
    + apply orb_false_iff in Hbad as [Hz%Z.eqb_neq Hg]. split; [done|].
      intros (_ & s' & [= <-] & Hall). destruct (Hall r Hs) as [?|?]; [done|].
      assert (r >? 100 = true) by (apply Z.gtb_gt; lia). congruence.
  - split; [|by intros [-> _]].
    intros [= <-]. split; [done|]. exists s. split; [done|]. intros r. by rewrite Hs.
Qed.

Lemma decide_inst_ratio_Returns inst_ratio :
  decide_inst_ratio getenv sscanf_u = Returns inst_ratio →
  (getenv "AFL_INST_RATIO" = None ∧ inst_ratio = 100) ∨
  (∃ s, getenv "AFL_INST_RATIO" = Some s ∧ sscanf_u s = Some inst_ratio ∧
        inst_ratio ≠ 0 ∧ inst_ratio ≤ 100).
Proof.
  unfold decide_inst_ratio.
  destruct (getenv "AFL_INST_RATIO") as [s|]; [|intros [= <-]; by left].
  destruct (sscanf_u s) as [r|] eqn:Hs; [|done].
  destruct ((r =? 0) || (r >? 100)) eqn:Hbad; [done|].
  intros [= <-]. right. exists s.
  apply orb_false_iff in Hbad as [Hz%Z.eqb_neq Hg].
  split_and!; try done. destruct (Z.gtb_spec r 100); [done | lia].
Qed.

(** A run that returns: the ratio was accepted, the loop ran over all
    blocks of the module, and the summary was printed unless quiet. *)
Lemma runOnModule_Returns m w b m' w' :
  runOnModule m w = Returns (b, m', w') →
  ∃ inst_ratio w1 n1,
    decide_inst_ratio getenv sscanf_u = Returns inst_ratio ∧
    foldl (instrument_block inst_ratio)
          (Module (mod_functions m)
                  (mod_globals m ++ ["__afl_area_ptr"; "__afl_prev_loc"])
                  (mod_inserted m),
           if be_quiet then w else say Banner w, 0)
          (blocks_of m)
    = (m', w1, n1) ∧
    b = true ∧ tables w' = tables w1 ∧ random_calls w' = random_calls w1 ∧
    console w' =
      (if be_quiet then console w1
       else console w1 ++
            [if n1 =? 0 then WarnNoTargets
             else OkInstrumented n1
                    (if bool_decide (is_Some (getenv "AFL_HARDEN")) then "hardened"
                     else if bool_decide (is_Some (getenv "AFL_USE_ASAN"))
                             || bool_decide (is_Some (getenv "AFL_USE_MSAN"))
                          then "ASAN/MSAN" else "non-hardened")
                    inst_ratio]).
Proof.
  unfold runOnModule, blocks_of.
  destruct (decide_inst_ratio getenv sscanf_u) as [inst_ratio|msg]; [|done].
  fold be_quiet. cbn [mod_functions]. rewrite foldl_concat.
  destruct (foldl _ _ _) as [[m1 w1] n1] eqn:Hfold.
  intros [= <- <- <-]. exists inst_ratio, w1, n1.
  split; [done|]. split; [done|]. split; [done|].
  destruct be_quiet; [done|]. by destruct (n1 =? 0).
Qed.

Lemma runOnModule_Fatal m w msg :
  runOnModule m w = Fatal msg ↔ decide_inst_ratio getenv sscanf_u = Fatal msg.
Proof.
  unfold runOnModule.
  destruct (decide_inst_ratio getenv sscanf_u) as [inst_ratio|msg0];
    [|split; by intros [= ->]].
  by destruct (foldl _ _ _) as [[m1 w1] n1].
Qed.

(** X11. [runOnModule] ends in [FATAL] exactly when [AFL_INST_RATIO] is
    set and its value does not convert to a number from 1 to 100 (no
    conversion, zero, or more than 100); the message is the one about
    the bad ratio.  With the variable unset it never does. *)
Theorem X11_fatal_on_bad_ratio m w msg :
  runOnModule m w = Fatal msg ↔
  msg = "Bad value of AFL_INST_RATIO (must be between 1 and 100)" ∧
  ∃ s, getenv "AFL_INST_RATIO" = Some s ∧
       ∀ r, sscanf_u s = Some r → r = 0 ∨ 100 < r.
Proof. rewrite <- decide_inst_ratio_Fatal. apply runOnModule_Fatal. Qed.

(** X12. With [AFL_INST_RATIO] unset the ratio is 100 and no block is
    skipped: [runOnModule] returns [true], code is inserted into every
    block of the module once, in the order of the module, and [random()]
    is called twice for each block. *)
Theorem X12_default_ratio_instruments_every_block m w :
  getenv "AFL_INST_RATIO" = None →
  ∃ m' w', runOnModule m w = Returns (true, m', w') ∧
    (mod_inserted m').*1 = (mod_inserted m).*1 ++ blocks_of m ∧
    random_calls w' = (random_calls w + 2 * length (blocks_of m))%nat.
Proof.
  intros Henv.
  destruct (runOnModule m w) as [[[b m'] w']|msg] eqn:Hrun.
  - exists m', w'.
    apply runOnModule_Returns in Hrun
      as (inst_ratio & w1 & n1 & Hratio & Hfold & -> & _ & Hcalls & _).
    split; [done|].
    apply decide_inst_ratio_Returns in Hratio as [[_ ->]|(s & Hs & _)]; [|congruence].
    apply block_loop_spec in Hfold
      as (_ & _ & _ & _ & new & Hins & _ & _ & _ & _ & Hall).
    destruct (Hall ltac:(lia)) as [Hnew Hc]. simpl in Hins.
    split.
    + rewrite Hins, fmap_app, <- list_fmap_compose. simpl. by rewrite <- Hnew.
    + rewrite Hcalls, Hc. by destruct be_quiet.
  - apply runOnModule_Fatal, decide_inst_ratio_Fatal in Hrun as (_ & s & Hs & _).
    congruence.
Qed.

(** One call to [random()] for a skipped block, two for an instrumented
    one. *)
Lemma block_loop_calls inst_ratio bs m w n m' w' n' :
  foldl (instrument_block inst_ratio) (m, w, n) bs = (m', w', n') →
  ∃ new : list (BasicBlock * Z),
    mod_inserted m' = mod_inserted m ++ ((λ e, (e.1, block_code e.2)) <$> new) ∧
    random_calls w' = (random_calls w + length bs + length new)%nat.
Proof.
  revert m w n. induction bs as [|BB bs IH]; intros m w n.
  - simpl. intros [= <- <- <-]. exists []. simpl. rewrite app_nil_r. split; [done | lia].
  - cbn [foldl]. unfold instrument_block at 2. cbn [AFL_R].
    destruct (_ >=? inst_ratio).
    + intros (new & Hins & Hc)%IH. exists new. simpl in *. split; [done | lia].
    + intros (new & Hins & Hc)%IH. simpl in *.
      exists ((BB, random (S (random_calls w)) mod MAP_SIZE MAP_SIZE_POW2) :: new).
      simpl. split; [rewrite Hins; by rewrite <- app_assoc | lia].
Qed.


(** X13. A run that returns gives [true], leaves the functions of the
    module as they are, declares the two globals [__afl_area_ptr] and
    [__afl_prev_loc] after those already there, and inserts code only
    into blocks of the module, in the order of the module and at most
    once for each occurrence of a block.  Each inserted code is the one
    for a [cur_loc] that is, for [MAP_SIZE_POW2 >= 0], an index of
    [0 .. MAP_SIZE-1]; [random()] is called once for a skipped block and
    twice for an instrumented one. *)
Theorem X13_module_after_the_pass m w b m' w' :
  runOnModule m w = Returns (b, m', w') →
  b = true ∧
  mod_functions m' = mod_functions m ∧
  mod_globals m' = mod_globals m ++ ["__afl_area_ptr"; "__afl_prev_loc"] ∧
  ∃ new : list (BasicBlock * Z),
    mod_inserted m' = mod_inserted m ++ ((λ e, (e.1, block_code e.2)) <$> new) ∧
    new.*1 `sublist_of` blocks_of m ∧
    (0 ≤ MAP_SIZE_POW2 → Forall (λ c, 0 ≤ c < MAP_SIZE MAP_SIZE_POW2) new.*2) ∧
    random_calls w' = (random_calls w + length (blocks_of m) + length new)%nat.
Proof.
  intros (inst_ratio & w1 & n1 & _ & Hfold & -> & _ & Hcalls & _)%runOnModule_Returns.
  split; [done|].
  pose proof (block_loop_calls _ _ _ _ _ _ _ _ Hfold) as (new' & Hins' & Hc').
  apply block_loop_spec in Hfold
    as (Hf & Hg & _ & _ & new & Hins & Hsub & _ & Hran & _ & _).
  simpl in *. split; [done|]. split; [done|]. exists new.
  split; [done|]. split; [done|]. split; [done|].
  rewrite Hcalls, Hc'.
  assert (length new' = length new) as ->; [|by destruct be_quiet].
  rewrite Hins in Hins'. apply app_inv_head in Hins'.
  apply (f_equal length) in Hins'. by rewrite !length_fmap in Hins'.
Qed.

(** X14. When quiet, a run that returns prints nothing.  Otherwise it
    prints the banner and then one line: the warning that nothing was
    instrumented when it inserted no code, else the summary, whose count
    is the number of blocks it inserted code into. *)
Theorem X14_console_reports_the_count m w b m' w' :
  runOnModule m w = Returns (b, m', w') →
  if be_quiet then console w' = console w
  else ∃ last, console w' = console w ++ [Banner; last] ∧
         ((length (mod_inserted m') = length (mod_inserted m) ∧ last = WarnNoTargets) ∨
          (∃ mode inst_ratio,
             last = OkInstrumented
                      (Z.of_nat (length (mod_inserted m') - length (mod_inserted m)))
                      mode inst_ratio ∧
             (length (mod_inserted m) < length (mod_inserted m'))%nat)).
Proof.
  intros (inst_ratio & w1 & n1 & _ & Hfold & _ & _ & _ & Hcons)%runOnModule_Returns.
  apply block_loop_spec in Hfold
    as (_ & _ & _ & Hc & new & Hins & _ & Hn & _).
  simpl in Hins, Hn. rewrite Hcons, Hc.
  assert (Hlen : length (mod_inserted m') = (length (mod_inserted m) + length new)%nat).
  { by rewrite Hins, length_app, length_fmap. }
  destruct be_quiet; [done|]. simpl.
  eexists. split; [by rewrite <- app_assoc|].
  destruct (n1 =? 0) eqn:Hn1.
  - left. apply Z.eqb_eq in Hn1. split; [lia | done].
  - right. apply Z.eqb_neq in Hn1. eexists _, _. split; [|lia].
    f_equal. lia.
Qed.

End PassFacts.

(** ** The claims on concrete runs *)

(** C1 (the code at the failing input). With [MAP_SIZE_POW2 = 4] the
    round [y = 1] accepts block [B] at [(x, z) = (1, 1)], the first pair of
    the search, with hashes 1 and 2; the search goes on and accepts [B]
    again at [(1, 3)] with hashes 3 and 4.  At the end of the round [B] is
    in [solv] twice, its parameters are those of the later acceptance and
    the hashes of both candidates are claimed. *)
Theorem C1_block_accepted_twice :
  let first := candidate Scenario.preds Scenario.keys Scenario.B 1 1 (clear_round init) 1 in
  let g := round 4 [Scenario.B] Scenario.preds Scenario.keys 1 init in
  (solv first = [Scenario.B] ∧
   params first !! Scenario.B = Some (1, 1, 1) ∧
   hashes first = {[ 1; 2 ]}) ∧
  (solv g = [Scenario.B; Scenario.B] ∧
   params g !! Scenario.B = Some (1, 1, 3) ∧
   hashes g = {[ 1; 2; 3; 4 ]}) ∧
  calcFmul 4 [Scenario.B] Scenario.preds Scenario.keys init = g.
Proof. vm_compute. repeat split. Qed.

(** C2 on the blocks of the scenarios: [B] is solved with hashes 3 and
    4, its two edges are also given the table slots 0 and 5, and the five
    single-predecessor blocks get the slots 6 to 10. *)
Lemma C2_no_slot_shared_witness :
  let g := calcSingle 4 Scenario.singles Scenario.all_keys
             (calcFhash 4 Scenario.preds Scenario.all_keys
                (calcFmul 4 [Scenario.B] Scenario.preds Scenario.all_keys init)) in
  NoDup (all_slots Scenario.preds Scenario.all_keys g) ∧
  solved_slots Scenario.preds Scenario.all_keys g = [3; 4] ∧
  hashMap g = list_to_map [((1, 0), 0); ((1, 2), 5)] ∧
  singleMap g = list_to_map [(10, 6); (11, 7); (12, 8); (13, 9); (14, 10)].
Proof.
  split; [|vm_compute; repeat split].
  exact (C2_no_slot_shared 4 Scenario.singles [Scenario.B] Scenario.preds Scenario.all_keys).
Defined.

(** C3 (counterexample). Four slots and five single-predecessor blocks:
    when the fifth block is reached every slot is occupied; [calcSingle]
    nevertheless returns, with the state the fourth block left, and the
    key of the fifth block has no entry in [singleMap].  The same holds
    for the three builders run in sequence. *)
Lemma C3_fifth_block_left_without_entry :
  let g4 := foldl (single_block 2 Scenario.single_keys) init (take 4 Scenario.singles) in
  let g := calcSingle 2 Scenario.singles Scenario.single_keys init in
  first_free (slot_range 2) (hashes g4) = None ∧
  hashes g4 = {[ 0; 1; 2; 3 ]} ∧
  g = g4 ∧
  singleMap g = list_to_map [(10, 0); (11, 1); (12, 2); (13, 3)] ∧
  singleMap g !! key_of Scenario.single_keys 8%positive = None ∧
  singleMap (calcSingle 2 Scenario.singles Scenario.single_keys
               (calcFhash 2 ∅ Scenario.single_keys
                  (calcFmul 2 [] ∅ Scenario.single_keys init)))
    !! key_of Scenario.single_keys 8%positive = None.
Proof. vm_compute. repeat split. Qed.

(** C3 on the state of the counterexample: every slot is occupied and
    the step for the fifth block changes nothing. *)
Lemma C3_exhaustion_is_silent_witness :
  let g4 := foldl (single_block 2 Scenario.single_keys) init (take 4 Scenario.singles) in
  (∀ i, 0 ≤ i < MAP_SIZE 2 → i ∈ hashes g4) ∧
  single_block 2 Scenario.single_keys g4 8%positive = g4.
Proof.
  intros g4.
  assert (H : ∀ i, 0 ≤ i < MAP_SIZE 2 → i ∈ hashes g4).
  { intros i Hi. change (MAP_SIZE 2) with 4 in Hi.
    assert (i = 0 ∨ i = 1 ∨ i = 2 ∨ i = 3) as [->|[->|[->| ->]]] by lia;
      vm_compute; reflexivity. }
  split; [exact H|].
  exact (proj2 (proj1 (proj2 (proj2
           (C3_exhaustion_is_silent 2 ∅ Scenario.single_keys g4 H))) 8%positive)).
Defined.

(** C4 on the scenario of C1: [B] is in [solv] and in [unsolv] after
    [calcFmul], and [calcFhash] gives its two edges table slots. *)
Lemma C4_unsolv_holds_every_block_witness :
  let g := calcFmul 4 [Scenario.B] Scenario.preds Scenario.keys init in
  Scenario.B ∈ solv g ∧ unsolv g = [Scenario.B] ∧
  hashMap (calcFhash 4 Scenario.preds Scenario.keys g)
  = list_to_map [((1, 0), 0); ((1, 2), 5)].
Proof.
  intros g.
  destruct (C4_unsolv_holds_every_block 4 [Scenario.B] Scenario.preds Scenario.keys)
    as (_ & _ & _ & Hend & _).
  destruct (Hend init ltac:(lia)) as [Hu _].
  split; [vm_compute; left|]. split; [exact Hu | vm_compute; reflexivity].
Defined.

(** C5 on the scenario of C1: [calcFmul] leaves [B] with the parameters
    [(1, 1, 3)], and its two hashes under them differ. *)
Lemma C5_solved_hashes_distinct_witness :
  params (calcFmul 4 [Scenario.B] Scenario.preds Scenario.keys init) !! Scenario.B
  = Some (1, 1, 3) ∧
  NoDup ((λ p, edgeHash (key_of Scenario.keys Scenario.B) (key_of Scenario.keys p) 1 1 3)
           <$> preds_of Scenario.preds Scenario.B).
Proof.
  assert (H : params (calcFmul 4 [Scenario.B] Scenario.preds Scenario.keys init)
              !! Scenario.B = Some (1, 1, 3)) by (vm_compute; reflexivity).
  split; [exact H|].
  exact (proj1 (C5_solved_hashes_distinct 4 [Scenario.B] Scenario.preds Scenario.keys
                  Scenario.B 1 1 3 H)).
Defined.

(** C6 on the keys 2 and 2 at [(x, y, z) = (1, 1, 1)]: the hash is
    [1 XOR (1 + 1) = 3]; adding [z] after the xor would give 1. *)
Lemma C6_edge_hash_formula_witness :
  edgeHash 2 2 1 1 1 = Z.lxor (Z.shiftr 2 1) (Z.shiftr 2 1 + 1) ∧
  edgeHash 2 2 1 1 1 = 3 ∧
  Z.lxor (Z.shiftr 2 1) (Z.shiftr 2 1) + 1 = 1.
Proof.
  split; [|split; reflexivity].
  apply (proj1 (C6_edge_hash_formula 4 Scenario.preds Scenario.keys 1 1 1
                  ltac:(lia) ltac:(lia) ltac:(lia) ltac:(lia))); lia.
Defined.




(** Why C9 needs the bound on the keys: with keys that are not below [MAP_SIZE] the solver can claim hashes
    outside the bitmap, and [hashes] can outgrow it: four slots, six
    claimed values. *)
Lemma wide_keys_outgrow_bitmap :
  let g := calcSingle 2 [4; 5]%positive Scenario.wide_keys
             (calcFhash 2 Scenario.preds Scenario.wide_keys
                (calcFmul 2 [Scenario.B] Scenario.preds Scenario.wide_keys init)) in
  hashes g = {[ 0; 1; 2; 3; 9; 17 ]} ∧ size (hashes g) = 6%nat ∧ MAP_SIZE 2 = 4.
Proof. vm_compute. repeat split. Qed.

(** C10 on a module of three blocks: run on the tables of the scenario
    of C2 and on the initial tables, [runOnModule] inserts the same code,
    with the bitmap indices [__afl_prev_loc XOR 10], [XOR 8] and
    [XOR 6], the values of the second, fourth and sixth call to
    [random()] modulo 16. *)
Lemma C10_instrumentation_ignores_tables_witness :
  let run := runOnModule 4 Scenario.random Scenario.getenv Scenario.isatty
               Scenario.sscanf_u Scenario.program in
  let g := calcSingle 4 Scenario.singles Scenario.all_keys
             (calcFhash 4 Scenario.preds Scenario.all_keys
                (calcFmul 4 [Scenario.B] Scenario.preds Scenario.all_keys init)) in
  run (World g 0 []) = result_map (λ r, (r.1, with_tables g r.2)) (run (World init 0 [])) ∧
  ∃ m w, run (World init 0 []) = Returns (true, m, w) ∧
         (mod_inserted m).*1 = [Scenario.B; Scenario.p1; Scenario.p2] ∧
         bitmap_index <$> (mod_inserted m).*2
         = (λ c, Some (CreateXor (CreateZExt (CreateLoad AFLPrevLoc) Int32Ty)
                                 (ConstantInt Int32Ty c))) <$> [10; 8; 6].
Proof.
  intros run g. split.
  - exact (proj1 (C10_instrumentation_ignores_tables 4 Scenario.random Scenario.getenv
                    Scenario.isatty Scenario.sscanf_u) Scenario.program (World init 0 []) g).
  - eexists _, _. vm_compute. repeat split.
Defined.

(** ** Further properties on concrete and empty inputs *)

(** X15. With no multi-predecessor block and no single-predecessor
    block, the three builders started on the initial globals leave them
    as they are, for every [MAP_SIZE_POW2], [preds] and [keys]: no slot
    is claimed and both tables are empty. *)
Theorem X15_empty_input_is_a_no_op MAP_SIZE_POW2 preds keys :
  calcFmul MAP_SIZE_POW2 [] preds keys init = init ∧
  calcSingle MAP_SIZE_POW2 [] keys
    (calcFhash MAP_SIZE_POW2 preds keys (calcFmul MAP_SIZE_POW2 [] preds keys init))
  = init.
Proof.
  assert (H : calcFmul MAP_SIZE_POW2 [] preds keys init = init).
  { unfold calcFmul. by destruct (param_range MAP_SIZE_POW2). }
  rewrite H. split; reflexivity.
Qed.

(** X4 on the scenario of C1: one block, so the sweep stops after its
    first round. *)
Lemma X4_small_input_stops_at_first_round_witness :
  (length [Scenario.B] < 10)%nat ∧ 2 ≤ 4 ∧
  calcFmul 4 [Scenario.B] Scenario.preds Scenario.keys init
  = round 4 [Scenario.B] Scenario.preds Scenario.keys 1 init.
Proof.
  assert (H1 : (length [Scenario.B] < 10)%nat) by (simpl; lia).
  assert (H2 : 2 ≤ 4) by lia.
  split; [exact H1|]. split; [exact H2|].
  exact (proj2 (X4_small_input_stops_at_first_round 4 [Scenario.B] Scenario.preds
                  Scenario.keys init H1 H2)).
Defined.

(** X6 on the globals an earlier run left: the solver claims the same
    hashes as on the initial globals. *)
Lemma X6_solver_forgets_earlier_state_witness :
  2 ≤ 4 ∧
  hashes Scenario.used ≠ ∅ ∧
  hashes (calcFmul 4 [Scenario.B] Scenario.preds Scenario.all_keys Scenario.used)
  = hashes (calcFmul 4 [Scenario.B] Scenario.preds Scenario.all_keys init).
Proof.
  assert (H : 2 ≤ 4) by lia.
  split; [exact H|]. split; [by vm_compute|].
  exact (proj1 (proj2 (X6_solver_forgets_earlier_state 4 [Scenario.B] Scenario.preds
                         Scenario.all_keys Scenario.used init H))).
Defined.

(** X7 on the globals an earlier run left. *)
Lemma X7_no_slot_shared_from_any_state_witness :
  2 ≤ 4 ∧
  NoDup (all_slots Scenario.preds Scenario.all_keys
           (calcSingle 4 Scenario.singles Scenario.all_keys
              (calcFhash 4 Scenario.preds Scenario.all_keys
                 (calcFmul 4 [Scenario.B] Scenario.preds Scenario.all_keys Scenario.used)))).
Proof.
  assert (H : 2 ≤ 4) by lia.
  split; [exact H|].
  exact (X7_no_slot_shared_from_any_state 4 Scenario.singles [Scenario.B] Scenario.preds
           Scenario.all_keys Scenario.used H).
Defined.

(** X10 on the scenario of C2: after the solver twelve of the sixteen
    indices are free, enough for the two edges of [B] and for the five
    single-predecessor blocks. *)
Lemma X10_enough_slots_cover_all_witness :
  let g := calcFmul 4 [Scenario.B] Scenario.preds Scenario.all_keys init in
  (length (edges_of Scenario.preds (unsolv g)) ≤ size (free_slots 4 g))%nat ∧
  is_Some (hashMap (calcFhash 4 Scenario.preds Scenario.all_keys g)
             !! (key_of Scenario.all_keys Scenario.B, key_of Scenario.all_keys Scenario.p2)).
Proof.
  intros g.
  assert (H : (length (edges_of Scenario.preds (unsolv g)) ≤ size (free_slots 4 g))%nat).
  { vm_compute. lia. }
  split; [exact H|].
  apply (proj1 (X10_enough_slots_cover_all 4 Scenario.singles Scenario.preds
                  Scenario.all_keys g) H Scenario.B Scenario.p2).
  - vm_compute. left.
  - vm_compute. right. left.
Defined.

(** X11 on a process started with [AFL_INST_RATIO=0]. *)
Lemma X11_fatal_on_bad_ratio_witness :
  runOnModule 4 Scenario.random Scenario.ratio_env Scenario.isatty Scenario.sscanf_zero
    Scenario.program (World init 0 [])
  = Fatal "Bad value of AFL_INST_RATIO (must be between 1 and 100)".
Proof.
  apply (proj2 (X11_fatal_on_bad_ratio 4 Scenario.random Scenario.ratio_env Scenario.isatty
                  Scenario.sscanf_zero Scenario.program (World init 0 []) _)).
  split; [reflexivity|]. exists "0". split; [reflexivity|].
  intros r [= <-]. by left.
Defined.

(** X12 on the module of three blocks. *)
Lemma X12_default_ratio_instruments_every_block_witness :
  Scenario.getenv "AFL_INST_RATIO" = None ∧
  ∃ m' w',
    runOnModule 4 Scenario.random Scenario.getenv Scenario.isatty Scenario.sscanf_u
      Scenario.program (World init 0 []) = Returns (true, m', w') ∧
    (mod_inserted m').*1 = [Scenario.B; Scenario.p1; Scenario.p2] ∧
    random_calls w' = 6%nat.
Proof.
  assert (H : Scenario.getenv "AFL_INST_RATIO" = None) by reflexivity.
  split; [exact H|].
  exact (X12_default_ratio_instruments_every_block 4 Scenario.random Scenario.getenv
           Scenario.isatty Scenario.sscanf_u Scenario.program (World init 0 []) H).
Defined.

(** X13 and X14 need a run that returns: the one on the module of three
    blocks, on a terminal. *)
Lemma scenario_run_returns :
  ∃ m' w',
    runOnModule 4 Scenario.random Scenario.getenv Scenario.tty Scenario.sscanf_u
      Scenario.program (World init 0 []) = Returns (true, m', w').
Proof. vm_compute. eauto. Defined.

(** X13 on that run. *)
Lemma X13_module_after_the_pass_witness :
  ∃ m' w',
    runOnModule 4 Scenario.random Scenario.getenv Scenario.tty Scenario.sscanf_u
      Scenario.program (World init 0 []) = Returns (true, m', w') ∧
    mod_functions m' = mod_functions Scenario.program ∧
    mod_globals m' = ["__afl_area_ptr"; "__afl_prev_loc"].
Proof.
  destruct scenario_run_returns as (m' & w' & H). exists m', w'.
  split; [exact H|].
  destruct (X13_module_after_the_pass 4 Scenario.random Scenario.getenv Scenario.tty
              Scenario.sscanf_u _ _ _ _ _ H) as (_ & Hf & Hg & _).
  split; [exact Hf | exact Hg].
Defined.

(** X14 on that run: the banner, then the summary. *)
Lemma X14_console_reports_the_count_witness :
  ∃ m' w' last,
    runOnModule 4 Scenario.random Scenario.getenv Scenario.tty Scenario.sscanf_u
      Scenario.program (World init 0 []) = Returns (true, m', w') ∧
    console w' = [Banner; last].
Proof.
  destruct scenario_run_returns as (m' & w' & H).
  destruct (X14_console_reports_the_count 4 Scenario.random Scenario.getenv Scenario.tty
              Scenario.sscanf_u _ _ _ _ _ H) as (last & Hc & _).
  exists m', w', last. split; [exact H | exact Hc].
Defined.

(** X16 on the block [p1], for which [preds] has no entry. *)
Lemma X16_block_without_predecessors_witness :
  preds_of Scenario.preds Scenario.p1 = [] ∧ 2 ≤ 4 ∧
  Scenario.p1 ∈ solv (round 4 [Scenario.p1] Scenario.preds Scenario.keys 1 init).
Proof.
  assert (H1 : preds_of Scenario.preds Scenario.p1 = []) by reflexivity.
  assert (H2 : 2 ≤ 4) by lia.
  split; [exact H1|]. split; [exact H2|].
  apply (proj2 (X16_block_without_predecessors 4 [Scenario.p1] Scenario.preds
                  Scenario.keys Scenario.p1 1 init H1 H2)).
  by left.
Defined.

(** X17 on three blocks of which two have the key 10, with four free
    slots: three slots are claimed, the table has two entries, and the
    entry for the key 10 holds the slot of the later block. *)
Lemma X17_table_keys_witness :
  let g := calcSingle 2 Scenario.twin_singles Scenario.twin_keys init in
  (length Scenario.twin_singles ≤ size (free_slots 2 init))%nat ∧
  size (singleMap g) = 2%nat ∧
  size (hashes g) = (size (hashes init) + 3)%nat ∧
  singleMap g !! 10 = Some 2.
Proof.
  intros g.
  assert (H : (length Scenario.twin_singles ≤ size (free_slots 2 init))%nat).
  { vm_compute. lia. }
  destruct (proj2 (X17_table_keys 2 Scenario.twin_singles ∅ Scenario.twin_keys init) H)
    as (_ & Hsize & Hhashes).
  split; [exact H|]. split; [exact Hsize|]. split; [exact Hhashes|].
  vm_compute. reflexivity.
Defined.
